(** * ringpop-go, package swim: member.go

    A shallow embedding of the membership core of ringpop-go (the SWIM
    member record, the change record, the conflict-resolution rules, the
    wire-compatibility shims and the label checksum) together with the
    properties its specification states about it.

    Conventions.
    - Go [string]s are byte sequences; they are Rocq [string]s (lists of
      8-bit [ascii]).
    - [int64] and [int] values are integers [Z]; the functions below only
      compare them, so no wrap-around arises. [uint32]/[int32] arithmetic
      has its wrap-around written out ([Go.uint32], [Go.int32]).
    - [map[string]string] and [LabelMap] are [gmap string string].
    - A [*bytes.Buffer] argument is threaded through as the buffer's
      contents: a function writing to the buffer maps the contents before
      the call to the contents after it.
    - The [sync.RWMutex] embedded in one revision of [Member] carries no
      data and is left out.
    - member.go is present in more than one revision; they agree on the
      conflict-resolution rules and the shims. The checksum modelled here
      is that of the revision with [LabelMap.checksum], which is the one
      member_test.go exercises. *)

From Stdlib Require Import ZArith Lia Permutation.
From stdpp Require Import base gmap strings list pretty sorting.

#[local] Open Scope Z_scope.

(** ** Go's fixed-width integers and number formatting *)

Module Go.

(** Conversion of an integer to [uint32]: the low 32 bits. *)
Definition uint32 (z : Z) : Z := z mod 2 ^ 32.

(** Conversion of an integer to [int32]: the low 32 bits, read in two's
    complement. *)
Definition int32 (z : Z) : Z := (z + 2 ^ 31) mod 2 ^ 32 - 2 ^ 31.

(** [strconv.Itoa] and the [%v] verb at an integer: the decimal digits,
    preceded by [-] for a negative number. *)
Definition Itoa (z : Z) : string := pretty z.

End Go.

(** ** Member states *)

(** The [const] block of the package. The constants live in a module of
    their own because [Change] also has a field called [Tombstone]; inside
    [Module Change] the constant is written [State.Tombstone]. *)
Module State.

Definition Alive : string := "alive".
Definition Suspect : string := "suspect".
Definition Faulty : string := "faulty".
Definition Leave : string := "leave".
Definition Tombstone : string := "tombstone".

End State.
Import State.

(** [statePrecedence]: a [switch] over the status string. *)
Definition statePrecedence (s : string) : Z :=
  if String.eqb s Alive then 0
  else if String.eqb s Suspect then 1
  else if String.eqb s Faulty then 2
  else if String.eqb s Leave then 3
  else if String.eqb s Tombstone then 4
  else -1.

(** The statuses the [switch] of [statePrecedence] names. *)
Definition knownStatus (s : string) : Prop :=
  s = Alive ∨ s = Suspect ∨ s = Faulty ∨ s = Leave ∨ s = Tombstone.

(** ** Changes *)

Module Change.

(** [type Change struct]; [Timestamp] is a [util.Timestamp], kept as the
    integer Unix time it is encoded as. *)
Record t : Type := mk {
  Source : string;
  SourceIncarnation : Z;
  Address : string;
  Incarnation : Z;
  Status : string;
  Tombstone : bool;
  Labels : gmap string string;
  Timestamp : Z
}.

(** The receiver [c] is a copy: assigning to [c.Status] builds the changed
    record that is returned. *)
Definition withStatus (c : t) (s : string) : t :=
  mk (Source c) (SourceIncarnation c) (Address c) (Incarnation c) s
     (Tombstone c) (Labels c) (Timestamp c).

Definition withTombstone (c : t) (b : bool) : t :=
  mk (Source c) (SourceIncarnation c) (Address c) (Incarnation c) (Status c)
     b (Labels c) (Timestamp c).

Definition validateIncoming (c : t) : t :=
  if String.eqb (Status c) Faulty && Tombstone c
  then withStatus c State.Tombstone
  else c.

Definition validateOutgoing (c : t) : t :=
  if String.eqb (Status c) State.Tombstone
  then withTombstone (withStatus c Faulty) true
  else c.

(** [overrides]: [c.overrides(c2)]. *)
Definition overrides (c c2 : t) : bool :=
  if Incarnation c >? Incarnation c2 then true
  else if Incarnation c <? Incarnation c2 then false
  else statePrecedence (Status c) >? statePrecedence (Status c2).

Definition isPingable (c : t) : bool :=
  String.eqb (Status c) Alive || String.eqb (Status c) Suspect.

End Change.

(** ** The 32-bit fingerprint of go-farm

    [LabelMap.checksum] calls [farm.Fingerprint32] of the library
    github.com/dgryski/go-farm, which is not part of this repository. The
    label checksum below takes the fingerprint as a parameter. This module
    models the library's function (FarmHash's [farmhashmk] 32-bit hash) so
    that the parameter can be instantiated; it reproduces the fingerprints
    that member_test.go records (see [Fingerprint32_hello_world] and
    [Fingerprint32_foo_bar] below), whose inputs take the branch for 5 to
    12 bytes. *)

Module Farm.

Definition c1 : Z := 0xcc9e2d51.
Definition c2 : Z := 0x1b873593.

(** The bytes of a string, each in [0, 256). *)
Fixpoint bytes (s : string) : list Z :=
  match s with
  | EmptyString => []
  | String a s' => Z.of_N (Ascii.N_of_ascii a) :: bytes s'
  end.

(** [rotate32]: rotation of a [uint32] to the right. *)
Definition rotate32 (val shift : Z) : Z :=
  if shift =? 0 then val
  else Go.uint32 (Z.lor (Z.shiftr val shift) (Z.shiftl val (32 - shift))).

(** Little-endian read of four bytes at offset [i]. *)
Definition fetch32 (s : list Z) (i : nat) : Z :=
  foldr (λ b acc, b + 256 * acc) 0 (take 4 (drop i s)).

Definition fmix (h : Z) : Z :=
  let h := Z.lxor h (Z.shiftr h 16) in
  let h := Go.uint32 (h * 0x85ebca6b) in
  let h := Z.lxor h (Z.shiftr h 13) in
  let h := Go.uint32 (h * 0xc2b2ae35) in
  Z.lxor h (Z.shiftr h 16).

Definition mur (a h : Z) : Z :=
  let a := Go.uint32 (a * c1) in
  let a := rotate32 a 17 in
  let a := Go.uint32 (a * c2) in
  let h := Z.lxor h a in
  let h := rotate32 h 19 in
  Go.uint32 (h * 5 + 0xe6546b64).

(** A byte converted to [int8] and then to [uint32]. *)
Definition signExtend (b : Z) : Z :=
  Go.uint32 (if b <? 128 then b else b - 256).

Definition hash32Len0to4 (s : list Z) (seed : Z) : Z :=
  let slen := Z.of_nat (length s) in
  let '(b, c) :=
    foldl (λ '(b, c) v,
             let b := Go.uint32 (Go.uint32 (b * c1) + signExtend v) in
             (b, Z.lxor c b))
          (seed, 9) s in
  fmix (mur b (mur slen c)).

Definition hash32Len5to12 (s : list Z) (seed : Z) : Z :=
  let slen := length s in
  let a := Z.of_nat slen in
  let b := Z.of_nat slen * 5 in
  let c := 9 in
  let d := Go.uint32 (b + seed) in
  let a := Go.uint32 (a + fetch32 s 0) in
  let b := Go.uint32 (b + fetch32 s (slen - 4)) in
  let c := Go.uint32 (c + fetch32 s (Z.to_nat (Z.land (Z.shiftr (Z.of_nat slen) 1) 4))) in
  fmix (Z.lxor seed (mur c (mur b (mur a d)))).

Definition hash32Len13to24 (s : list Z) (seed : Z) : Z :=
  let slen := length s in
  let half := Nat.div2 slen in
  let a := fetch32 s (half - 4) in
  let b := fetch32 s 4 in
  let c := fetch32 s (slen - 8) in
  let d := fetch32 s half in
  let e := fetch32 s 0 in
  let f := fetch32 s (slen - 4) in
  let h := Go.uint32 (d * c1 + Z.of_nat slen + seed) in
  let a := Go.uint32 (rotate32 a 12 + f) in
  let h := Go.uint32 (mur c h + a) in
  let a := Go.uint32 (rotate32 a 3 + c) in
  let h := Go.uint32 (mur e h + a) in
  let a := Go.uint32 (rotate32 (Go.uint32 (a + f)) 12 + d) in
  let h := Go.uint32 (mur (Z.lxor b seed) h + a) in
  fmix h.

(** The body of the loop of [Hash32] over inputs longer than 24 bytes,
    run [iters] times (the loop is a do-while: it runs at least once). *)
Fixpoint hash32Loop (iters : nat) (s : list Z) (h g f : Z) : Z * Z * Z :=
  let a := fetch32 s 0 in
  let b := fetch32 s 4 in
  let c := fetch32 s 8 in
  let d := fetch32 s 12 in
  let e := fetch32 s 16 in
  let h := Go.uint32 (h + a) in
  let g := Go.uint32 (g + b) in
  let f := Go.uint32 (f + c) in
  let h := Go.uint32 (mur d h + e) in
  let g := Go.uint32 (mur c g + a) in
  let f := Go.uint32 (mur (Go.uint32 (b + Go.uint32 (e * c1))) f + d) in
  let f := Go.uint32 (f + g) in
  let g := Go.uint32 (g + f) in
  match iters with
  | O | S O => (h, g, f)
  | S iters' => hash32Loop iters' (drop 20 s) h g f
  end.

Definition murStep (h a : Z) : Z :=
  let h := Z.lxor h a in
  let h := rotate32 h 19 in
  Go.uint32 (h * 5 + 0xe6546b64).

Definition Hash32 (s : list Z) : Z :=
  let slen := length s in
  if (slen <=? 24)%nat then
    if (slen <=? 12)%nat then
      if (slen <=? 4)%nat then hash32Len0to4 s 0 else hash32Len5to12 s 0
    else hash32Len13to24 s 0
  else
    let h := Z.of_nat slen in
    let g := Go.uint32 (c1 * Z.of_nat slen) in
    let f := g in
    let a0 := Go.uint32 (rotate32 (Go.uint32 (fetch32 s (slen - 4) * c1)) 17 * c2) in
    let a1 := Go.uint32 (rotate32 (Go.uint32 (fetch32 s (slen - 8) * c1)) 17 * c2) in
    let a2 := Go.uint32 (rotate32 (Go.uint32 (fetch32 s (slen - 16) * c1)) 17 * c2) in
    let a3 := Go.uint32 (rotate32 (Go.uint32 (fetch32 s (slen - 12) * c1)) 17 * c2) in
    let a4 := Go.uint32 (rotate32 (Go.uint32 (fetch32 s (slen - 20) * c1)) 17 * c2) in
    let h := murStep (murStep h a0) a2 in
    let g := murStep (murStep g a1) a3 in
    let f := Go.uint32 (f + a4) in
    let f := Go.uint32 (rotate32 f 19 + 113) in
    let '(h, g, f) := hash32Loop ((slen - 1) / 20) s h g f in
    let g := Go.uint32 (rotate32 g 11 * c1) in
    let g := Go.uint32 (rotate32 g 17 * c1) in
    let f := Go.uint32 (rotate32 f 11 * c1) in
    let f := Go.uint32 (rotate32 f 17 * c1) in
    let h := rotate32 (Go.uint32 (h + g)) 19 in
    let h := Go.uint32 (h * 5 + 0xe6546b64) in
    let h := Go.uint32 (rotate32 h 17 * c1) in
    let h := rotate32 (Go.uint32 (h + f)) 19 in
    let h := Go.uint32 (h * 5 + 0xe6546b64) in
    Go.uint32 (rotate32 h 17 * c1).

Definition Fingerprint32 (s : string) : Z := Hash32 (bytes s).

End Farm.

(** ** Label maps *)

Module LabelMap.

Section Checksum.

(** [farm.Fingerprint32], a function from byte strings to [uint32]. *)
Variable Fingerprint32 : string → Z.

(** The contents of the scratch buffer [lb] for one label: the four
    [WriteString] calls. *)
Definition entryBytes (key value : string) : string :=
  "/" +:+ key +:+ "/" +:+ value.

(** One iteration of the loop of [checksum]. *)
Definition checksumStep (checksum : Z) (kv : string * string) : Z :=
  Z.lxor checksum (Fingerprint32 (entryBytes kv.1 kv.2)).

(** The loop of [checksum], over the entries in the order in which the
    [range] statement yields them. *)
Definition checksumLoop (entries : list (string * string)) : Z :=
  foldl checksumStep 0 entries.

(** [int32(checksum>>1)<<1 | int32(checksum&uint32(1))] *)
Definition signedChecksum (checksum : Z) : Z :=
  Z.lor (Go.int32 (Z.shiftl (Go.int32 (Z.shiftr checksum 1)) 1))
        (Go.int32 (Z.land checksum 1)).

(** [checksum] when [range] yields the entries in the order [entries]. *)
Definition checksumOver (entries : list (string * string)) : Z :=
  signedChecksum (checksumLoop entries).

(** Go leaves the iteration order of [range] over a map unspecified: each
    entry of the map is yielded exactly once, in some order. *)
Definition rangeOrder (l : gmap string string) (entries : list (string * string)) : Prop :=
  entries ≡ₚ map_to_list l.

(** [checksum], at the iteration order [map_to_list]; every other order
    gives the same value (see [checksumOver_permutation] below). *)
Definition checksum (l : gmap string string) : Z :=
  checksumOver (map_to_list l).

(** [checksumString]: the buffer after the call, from the buffer before. *)
Definition checksumString (l : gmap string string) (b : string) : string :=
  let checksum := checksum l in
  if checksum =? 0 then b
  else b +:+ "#labels" +:+ Go.Itoa checksum.

(** The specification's account of the checksum: the fingerprint of each
    label's ["/key/value"] string, and the XOR of them all. *)
Definition fingerprints (entries : list (string * string)) : list Z :=
  (λ kv, Fingerprint32 ("/" +:+ kv.1 +:+ "/" +:+ kv.2)) <$> entries.

Definition xorFold (fps : list Z) : Z := foldr Z.lxor 0 fps.

End Checksum.

End LabelMap.

(** ** Members *)

Module Member.

Record t : Type := mk {
  Address : string;
  Status : string;
  Incarnation : Z;
  Labels : gmap string string
}.

Definition withLabels (m : t) (l : gmap string string) : t :=
  mk (Address m) (Status m) (Incarnation m) l.

Section Checksum.

Variable Fingerprint32 : string → Z.

(** [checksumString]: [fmt.Fprintf(b, "%s%s%v", ...)] followed by the
    label portion. *)
Definition checksumString (m : t) (b : string) : string :=
  LabelMap.checksumString Fingerprint32 (Labels m)
    (b +:+ Address m +:+ Status m +:+ Go.Itoa (Incarnation m)).

End Checksum.

Definition nonLocalOverride (m : t) (change : Change.t) : bool :=
  if negb (String.eqb (Change.Address change) (Address m)) then false
  else if Change.Incarnation change >? Incarnation m then true
  else if Change.Incarnation change <? Incarnation m then false
  else statePrecedence (Change.Status change) >? statePrecedence (Status m).

Definition localOverride (m : t) (local : string) (change : Change.t) : bool :=
  if negb (String.eqb (Address m) local) then false
  else if Change.Incarnation change <? Incarnation m then false
  else String.eqb (Change.Status change) Faulty
       || String.eqb (Change.Status change) Suspect
       || String.eqb (Change.Status change) Tombstone.

Definition isReachable (m : t) : bool :=
  String.eqb (Status m) Alive || String.eqb (Status m) Suspect.

End Member.

(** [acceptGossip]: [old] may be [nil] ([None]); [gossip] is dereferenced
    first thing, so it is a member. *)
Definition acceptGossip (old : option Member.t) (gossip : Member.t) : bool :=
  if String.eqb (Member.Status gossip) Tombstone && bool_decide (old = None)
  then false
  else
    match old with
    | None => true
    | Some old =>
        if Member.Incarnation gossip >? Member.Incarnation old then true
        else if Member.Incarnation gossip <? Member.Incarnation old then false
        else if statePrecedence (Member.Status gossip)
                >? statePrecedence (Member.Status old)
             then true
             else false
    end.

(** ** Conversions between members and changes *)

(** [populateFromChange], at a receiver [m] and a change [c] (the pointer
    [c] is dereferenced, so it is a change): the four assignments in the
    order of the source. *)
Definition populateFromChange (m : Member.t) (c : Change.t) : Member.t :=
  let m := Member.mk (Change.Address c) (Member.Status m)
                     (Member.Incarnation m) (Member.Labels m) in
  let m := Member.mk (Member.Address m) (Member.Status m)
                     (Change.Incarnation c) (Member.Labels m) in
  let m := Member.mk (Member.Address m) (Change.Status c)
                     (Member.Incarnation m) (Member.Labels m) in
  Member.mk (Member.Address m) (Member.Status m)
            (Member.Incarnation m) (Change.Labels c).

(** [populateSubject], at a receiver [c]; [m] may be [nil] ([None]). *)
Definition populateSubject (c : Change.t) (m : option Member.t) : Change.t :=
  match m with
  | None => c
  | Some m =>
      Change.mk (Change.Source c) (Change.SourceIncarnation c)
                (Member.Address m) (Member.Incarnation m) (Member.Status m)
                (Change.Tombstone c) (Member.Labels m) (Change.Timestamp c)
  end.

(** [populateSource], at a receiver [c]; [m] may be [nil] ([None]). *)
Definition populateSource (c : Change.t) (m : option Member.t) : Change.t :=
  match m with
  | None => c
  | Some m =>
      Change.mk (Member.Address m) (Member.Incarnation m)
                (Change.Address c) (Change.Incarnation c) (Change.Status c)
                (Change.Tombstone c) (Change.Labels c) (Change.Timestamp c)
  end.

(** ** Shuffle *)

Section Shuffle.

(** The element type of the slice (in the source, [*Member]) and its zero
    value, with which [make] fills the new slice. *)
Context {P : Type} (nil : P).

(** The loop [for o, n := range newIndexes { newMembers[n] = members[o] }],
    from position [o] on. An index out of range makes the Go code panic:
    the result is then [None]. *)
Fixpoint shuffleLoop (members : list P) (o : nat) (newIndexes : list nat)
    (newMembers : list P) : option (list P) :=
  match newIndexes with
  | [] => Some newMembers
  | n :: rest =>
      match members !! o with
      | Some p =>
          if bool_decide (n < length newMembers)%nat
          then shuffleLoop members (S o) rest (<[ n := p ]> newMembers)
          else None
      | None => None
      end
  end.

(** [shuffle]; [newIndexes] is what [rand.Perm(len(members))] returned. *)
Definition shuffle (newIndexes : list nat) (members : list P) : option (list P) :=
  shuffleLoop members 0 newIndexes (replicate (length members) nil).

End Shuffle.

(** ** The checksum string of the revision that sorts the label keys *)

Module SortedLabels.

(** [sort.Strings]: the slice in increasing order. Go compares strings
    byte by byte, which is the order [String.le]. *)
Definition sortStrings (keys : list string) : list string :=
  merge_sort String.le keys.

(** The four [WriteString] calls for one key; [labels[key]] is the empty
    string for a key that is not in the map. *)
Definition writeLabel (l : gmap string string) (b key : string) : string :=
  b +:+ "-" +:+ key +:+ "-" +:+ default "" (l !! key).

(** [LabelMap.checksumString] of this revision, when [range] yields the
    keys in the order [keys]. *)
Definition checksumStringOver (l : gmap string string) (keys : list string)
    (b : string) : string :=
  if bool_decide (0 < size l)%nat
  then foldl (writeLabel l) b (sortStrings keys)
  else b.

(** Each key of the map is yielded exactly once, in some order. *)
Definition rangeKeys (l : gmap string string) (keys : list string) : Prop :=
  keys ≡ₚ (map_to_list l).*1.

Definition checksumString (l : gmap string string) (b : string) : string :=
  checksumStringOver l (map_to_list l).*1 b.

(** [Member.checksumString] of this revision. *)
Definition memberChecksumString (m : Member.t) (b : string) : string :=
  checksumString (Member.Labels m)
    (b +:+ Member.Address m +:+ Member.Status m +:+ Go.Itoa (Member.Incarnation m)).

End SortedLabels.

(** ** Inputs used in the examples below *)

(** The addresses of member_test.go. *)
Definition localAddr : string := "local address".
Definition nonLocalAddr : string := "non-local address".

(** [newMember] and [newChange] of member_test.go: the fields that are not
    named keep Go's zero values. *)
Definition newMember (addr status : string) (incNum : Z) : Member.t :=
  Member.mk addr status incNum ∅.

Definition newChange (addr status : string) (incNum : Z) : Change.t :=
  Change.mk "" 0 addr incNum status false ∅ 0.

(** The member of [TestMemberChecksumString], with the given labels. *)
Definition testMember (labels : gmap string string) : Member.t :=
  Member.mk "192.168.2.1:1234" Alive 42 labels.

(** A change whose status is already Tombstone, with the flag set. *)
Definition tombstoneChange : Change.t :=
  Change.mk "" 0 nonLocalAddr 42 Tombstone true ∅ 0.

(** A legacy change: Faulty with the flag set. *)
Definition legacyTombstoneChange : Change.t :=
  Change.mk "" 0 nonLocalAddr 42 Faulty true ∅ 0.

(** A label whose ["/key/value"] string has the FarmHash fingerprint 0. *)
Definition zeroFingerprintLabels : gmap string string :=
  {[ "k" := "ag2tlaaxq" ]}.

(** * Properties *)

(** ** State precedence *)

Ltac zcmp :=
  repeat match goal with
         | |- context [?a >? ?b] => rewrite (Z.gtb_ltb a b)
         | H : context [?a >? ?b] |- _ => rewrite (Z.gtb_ltb a b) in H
         end;
  repeat match goal with
         | |- context [?a <? ?b] => destruct (Z.ltb_spec a b)
         | H : context [?a <? ?b] |- _ => destruct (Z.ltb_spec a b)
         end.

Ltac by_evaluation :=
  let H := fresh in
  first [ reflexivity | intros H; vm_compute in H; discriminate H ].

Ltac by_evaluation_in H := vm_compute in H; discriminate H.

Ltac streq :=
  repeat match goal with
         | |- context [String.eqb ?a ?b] => destruct (String.eqb_spec a b)
         | H : context [String.eqb ?a ?b] |- _ => destruct (String.eqb_spec a b)
         end.

Lemma statePrecedence_unknown (s : string) :
  ¬ knownStatus s → statePrecedence s = -1.
Proof.
  unfold knownStatus, statePrecedence. intros Hs.
  streq; try reflexivity; exfalso; apply Hs; auto 6.
Qed.

Lemma statePrecedence_known (k : string) :
  knownStatus k → 0 <= statePrecedence k <= 4.
Proof.
  intros [-> | [-> | [-> | [-> | ->]]]]; vm_compute; split; discriminate.
Qed.

Lemma statePrecedence_range (s : string) : -1 <= statePrecedence s <= 4.
Proof. unfold statePrecedence. streq; lia. Qed.

(** C7. [statePrecedence] ranks Alive 0, Suspect 1, Faulty 2, Leave 3 and
    Tombstone 4, and every other string -1. So an unrecognized status ranks
    strictly below every known one, and a change (or gossip) that carries
    an unrecognized status is never preferred when the incarnation numbers
    are equal: [overrides], [nonLocalOverride] and [acceptGossip] then
    return false. All of these are total functions, so there is no error
    case. *)
Theorem statePrecedence_spec :
  statePrecedence Alive = 0
  ∧ statePrecedence Suspect = 1
  ∧ statePrecedence Faulty = 2
  ∧ statePrecedence Leave = 3
  ∧ statePrecedence Tombstone = 4
  ∧ (∀ s, ¬ knownStatus s → statePrecedence s = -1)
  ∧ (∀ s k, ¬ knownStatus s → knownStatus k →
       statePrecedence s < statePrecedence k)
  ∧ (∀ a b : Change.t,
       ¬ knownStatus (Change.Status a) →
       Change.Incarnation a = Change.Incarnation b →
       Change.overrides a b = false)
  ∧ (∀ (m : Member.t) (c : Change.t),
       ¬ knownStatus (Change.Status c) →
       Change.Incarnation c = Member.Incarnation m →
       Member.nonLocalOverride m c = false)
  ∧ (∀ old gossip : Member.t,
       ¬ knownStatus (Member.Status gossip) →
       Member.Incarnation gossip = Member.Incarnation old →
       acceptGossip (Some old) gossip = false).
Proof.
  repeat match goal with |- _ = _ ∧ _ => split; [reflexivity |] end.
  split; [exact statePrecedence_unknown |].
  split.
  { intros s k Hs Hk. rewrite (statePrecedence_unknown s Hs).
    pose proof (statePrecedence_known k Hk). lia. }
  split; [| split].
  - intros a b Ha Hinc. unfold Change.overrides.
    rewrite (statePrecedence_unknown _ Ha), Hinc.
    pose proof (statePrecedence_range (Change.Status b)). zcmp; reflexivity || lia.
  - intros m c Hc Hinc. unfold Member.nonLocalOverride.
    rewrite (statePrecedence_unknown _ Hc), Hinc.
    pose proof (statePrecedence_range (Member.Status m)).
    destruct (negb _); [reflexivity |]. zcmp; reflexivity || lia.
  - intros old gossip Hg Hinc. unfold acceptGossip.
    rewrite andb_false_r, (statePrecedence_unknown _ Hg), Hinc.
    pose proof (statePrecedence_range (Member.Status old)). zcmp; reflexivity || lia.
Qed.

Lemma unknown_status_example : ¬ knownStatus "zombie".
Proof. intros [H | [H | [H | [H | H]]]]; discriminate H. Qed.

(** An unrecognized status at work: ["zombie"] ranks below Alive and loses
    the tie at incarnation 7. *)
Lemma statePrecedence_spec_witness :
  statePrecedence "zombie" < statePrecedence Alive
  ∧ Change.overrides (newChange localAddr "zombie" 7) (newChange localAddr Alive 7) = false.
Proof.
  destruct statePrecedence_spec as (_ & _ & _ & _ & _ & _ & Hlt & Hov & _).
  split.
  - apply Hlt; [exact unknown_status_example | left; reflexivity].
  - apply Hov; [exact unknown_status_example | reflexivity].
Defined.

(** ** Conflict resolution *)

Section Overrides.

(** [overrides] is the strict lexicographic order on the pair
    (incarnation, state precedence). *)
Lemma overrides_lex (a b : Change.t) :
  Change.overrides a b = true ↔
  Change.Incarnation b < Change.Incarnation a
  ∨ (Change.Incarnation a = Change.Incarnation b
     ∧ statePrecedence (Change.Status b) < statePrecedence (Change.Status a)).
Proof.
  unfold Change.overrides. zcmp; split; intros Hyp; try reflexivity; try discriminate Hyp; lia.
Qed.

Lemma overrides_false (a b : Change.t) :
  Change.overrides a b = false ↔
  Change.Incarnation a < Change.Incarnation b
  ∨ (Change.Incarnation a = Change.Incarnation b
     ∧ statePrecedence (Change.Status a) <= statePrecedence (Change.Status b)).
Proof.
  unfold Change.overrides. zcmp; split; intros Hyp; try reflexivity; try discriminate Hyp; lia.
Qed.

(** C3. For changes [a] and [b]: a higher incarnation wins outright, in both
    directions; on equal incarnation [a] overrides [b] exactly when its
    state precedence is higher; with a lower incarnation [a] does not
    override [b]. (Nothing here depends on the two changes having the same
    address.) *)
Theorem overrides_spec (a b : Change.t) :
  (Change.Incarnation a > Change.Incarnation b →
     Change.overrides a b = true ∧ Change.overrides b a = false)
  ∧ (Change.Incarnation a = Change.Incarnation b →
     Change.overrides a b = (statePrecedence (Change.Status a) >? statePrecedence (Change.Status b)))
  ∧ (Change.Incarnation a < Change.Incarnation b → Change.overrides a b = false).
Proof.
  split; [| split].
  - intros Hgt. split.
    + apply overrides_lex. lia.
    + apply overrides_false. lia.
  - intros Heq. unfold Change.overrides. rewrite Heq.
    rewrite (Z.gtb_ltb (Change.Incarnation b)), Z.ltb_irrefl. reflexivity.
  - intros Hlt. apply overrides_false. lia.
Qed.

(** Incarnation 43 beats incarnation 42 whatever the states are. *)
Lemma overrides_spec_witness :
  Change.overrides (newChange localAddr Alive 43) (newChange localAddr Tombstone 42) = true
  ∧ Change.overrides (newChange localAddr Tombstone 42) (newChange localAddr Alive 43) = false.
Proof.
  apply (proj1 (overrides_spec (newChange localAddr Alive 43)
                               (newChange localAddr Tombstone 42))).
  reflexivity.
Defined.

(** C10. [overrides] is irreflexive and asymmetric; two changes of equal
    incarnation and equal state precedence do not override each other;
    the relation is transitive, hence a strict partial order; and it is
    not total, there being distinct changes neither of which overrides the
    other. *)
Theorem overrides_strict_partial_order :
  (∀ a, Change.overrides a a = false)
  ∧ (∀ a b, Change.overrides a b = true → Change.overrides b a = false)
  ∧ (∀ a b, Change.Incarnation a = Change.Incarnation b →
            statePrecedence (Change.Status a) = statePrecedence (Change.Status b) →
            Change.overrides a b = false ∧ Change.overrides b a = false)
  ∧ (∀ a b c, Change.overrides a b = true → Change.overrides b c = true → Change.overrides a c = true)
  ∧ (∃ a b, a ≠ b ∧ Change.overrides a b = false ∧ Change.overrides b a = false).
Proof.
  split; [| split; [| split; [| split]]].
  - intros a. apply overrides_false. lia.
  - intros a b Hab. apply overrides_lex in Hab. apply overrides_false. lia.
  - intros a b Hinc Hprec. split; apply overrides_false; lia.
  - intros a b c Hab Hbc.
    apply overrides_lex in Hab. apply overrides_lex in Hbc.
    apply overrides_lex. lia.
  - exists (newChange localAddr Faulty 42), (newChange nonLocalAddr Faulty 42).
    split; [discriminate |]. split; reflexivity.
Qed.

(** Asymmetry and transitivity at work on three changes about one
    address. *)
Lemma overrides_strict_partial_order_witness :
  Change.overrides (newChange localAddr Suspect 42) (newChange localAddr Faulty 42) = false
  ∧ Change.overrides (newChange localAddr Alive 43) (newChange localAddr Suspect 42) = true.
Proof.
  destruct overrides_strict_partial_order as (_ & Hasym & _ & Htrans & _).
  split.
  - apply Hasym. reflexivity.
  - apply (Htrans _ (newChange localAddr Faulty 42)); reflexivity.
Defined.

End Overrides.

Section MemberOverrides.

(** C9. [nonLocalOverride] is false for a change about another address;
    for a change about the member's address it is true on a higher
    incarnation, false on a lower one, and on equal incarnations it is the
    comparison of the state precedences. *)
Theorem nonLocalOverride_spec (m : Member.t) (change : Change.t) :
  (Change.Address change ≠ Member.Address m →
     Member.nonLocalOverride m change = false)
  ∧ (Change.Address change = Member.Address m →
     (Change.Incarnation change > Member.Incarnation m →
        Member.nonLocalOverride m change = true)
     ∧ (Change.Incarnation change < Member.Incarnation m →
        Member.nonLocalOverride m change = false)
     ∧ (Change.Incarnation change = Member.Incarnation m →
        Member.nonLocalOverride m change =
        (statePrecedence (Change.Status change) >? statePrecedence (Member.Status m)))).
Proof.
  unfold Member.nonLocalOverride. split.
  - intros Hne. apply String.eqb_neq in Hne. rewrite Hne. reflexivity.
  - intros Heq. apply String.eqb_eq in Heq. rewrite Heq. cbn [negb].
    repeat split; intros Hinc.
    + zcmp; reflexivity || lia.
    + zcmp; reflexivity || lia.
    + rewrite Hinc, (Z.gtb_ltb (Member.Incarnation m)), Z.ltb_irrefl. reflexivity.
Qed.

(** A member at incarnation 42: a change about another address is
    refused, a change about it at incarnation 43 is taken. *)
Lemma nonLocalOverride_spec_witness :
  Member.nonLocalOverride (newMember nonLocalAddr Faulty 42)
                          (newChange localAddr Tombstone 43) = false
  ∧ Member.nonLocalOverride (newMember nonLocalAddr Faulty 42)
                            (newChange nonLocalAddr Alive 43) = true.
Proof.
  split.
  - apply (proj1 (nonLocalOverride_spec (newMember nonLocalAddr Faulty 42)
                                        (newChange localAddr Tombstone 43))).
    by_evaluation.
  - destruct (nonLocalOverride_spec (newMember nonLocalAddr Faulty 42)
                                    (newChange nonLocalAddr Alive 43))
      as (_ & Hsame).
    destruct (Hsame eq_refl) as (Hnewer & _).
    apply Hnewer. reflexivity.
Defined.

(** [localOverride] as a condition on its arguments. The address that is
    compared with [local] is the receiver's; the address of the change is
    not read. *)
Lemma localOverride_true (m : Member.t) (local : string) (change : Change.t) :
  Member.localOverride m local change = true ↔
  Member.Address m = local
  ∧ Change.Incarnation change >= Member.Incarnation m
  ∧ (Change.Status change = Suspect
     ∨ Change.Status change = Faulty
     ∨ Change.Status change = Tombstone).
Proof.
  unfold Member.localOverride.
  destruct (String.eqb_spec (Member.Address m) local) as [Ha | Ha]; cbn [negb].
  - zcmp.
    + split; [discriminate | lia].
    + rewrite !orb_true_iff, !String.eqb_eq. split.
      * intros [[H' | H'] | H']; (split; [exact Ha | split; [lia | auto]]).
      * intros (_ & _ & [H' | [H' | H']]); auto.
  - split; [discriminate | intros (H' & _); contradiction].
Qed.

(** C1, as the code has it. [m.localOverride(local, change)] is true
    exactly when the receiver [m] is the local member ([m.Address ==
    local]), the incarnation of the change is at least the member's, and the
    status of the change is Suspect, Faulty or Tombstone. It is false for
    every Alive or Leave change and whenever the receiver is not the local
    member. *)
Theorem localOverride_spec (m : Member.t) (local : string) (change : Change.t) :
  (Member.localOverride m local change = true ↔
     Member.Address m = local
     ∧ Change.Incarnation change >= Member.Incarnation m
     ∧ (Change.Status change = Suspect
        ∨ Change.Status change = Faulty
        ∨ Change.Status change = Tombstone))
  ∧ (Change.Status change = Alive ∨ Change.Status change = Leave →
     Member.localOverride m local change = false)
  ∧ (Member.Address m ≠ local → Member.localOverride m local change = false).
Proof.
  split; [apply localOverride_true |]. split.
  - intros Hs. apply not_true_is_false. intros Ht.
    apply localOverride_true in Ht. destruct Ht as (_ & _ & Hst).
    destruct Hs as [Hs | Hs]; rewrite Hs in Hst;
      destruct Hst as [Hst | [Hst | Hst]]; discriminate Hst.
  - intros Hne. apply not_true_is_false. intros Ht.
    apply localOverride_true in Ht. destruct Ht as (Ha & _). contradiction.
Qed.

(** The local member at incarnation 42 hears that it is suspected at
    incarnation 42: it has to reincarnate. An Alive change does not make
    it. *)
Lemma localOverride_spec_witness :
  Member.localOverride (newMember localAddr Alive 42) localAddr
                       (newChange localAddr Suspect 42) = true
  ∧ Member.localOverride (newMember localAddr Alive 42) localAddr
                         (newChange localAddr Alive 43) = false.
Proof.
  split.
  - apply (proj1 (localOverride_spec (newMember localAddr Alive 42) localAddr
                                     (newChange localAddr Suspect 42))).
    split; [reflexivity | split; [by_evaluation | left; reflexivity]].
  - apply (proj1 (proj2 (localOverride_spec (newMember localAddr Alive 42) localAddr
                                            (newChange localAddr Alive 43)))).
    left; reflexivity.
Defined.

(** C1, as the specification words it, fails: called on the local member
    with a change about another address, [localOverride] is true. *)
Lemma localOverride_ignores_change_address :
  Member.localOverride (newMember localAddr Alive 42) localAddr
                       (newChange nonLocalAddr Suspect 42) = true
  ∧ Change.Address (newChange nonLocalAddr Suspect 42) ≠ localAddr.
Proof. split; by_evaluation. Qed.

(** C2. [acceptGossip]: with no stored member, a Tombstone is refused and
    anything else accepted; with a stored member, a higher incarnation is
    accepted, a lower one refused whatever the states, and on equal
    incarnations the gossip is accepted exactly when its state precedence
    is higher. *)
Theorem acceptGossip_spec (gossip : Member.t) :
  (Member.Status gossip = Tombstone → acceptGossip None gossip = false)
  ∧ (Member.Status gossip ≠ Tombstone → acceptGossip None gossip = true)
  ∧ (∀ old : Member.t,
       (Member.Incarnation gossip > Member.Incarnation old →
          acceptGossip (Some old) gossip = true)
       ∧ (Member.Incarnation gossip < Member.Incarnation old →
          acceptGossip (Some old) gossip = false)
       ∧ (Member.Incarnation gossip = Member.Incarnation old →
          acceptGossip (Some old) gossip =
          (statePrecedence (Member.Status gossip) >? statePrecedence (Member.Status old)))).
Proof.
  split; [| split].
  - intros Hs. unfold acceptGossip. rewrite Hs. reflexivity.
  - intros Hs. unfold acceptGossip. apply String.eqb_neq in Hs. rewrite Hs. reflexivity.
  - intros old. unfold acceptGossip. rewrite andb_false_r.
    repeat split; intros Hinc.
    + zcmp; reflexivity || lia.
    + zcmp; reflexivity || lia.
    + rewrite Hinc, (Z.gtb_ltb (Member.Incarnation old)), Z.ltb_irrefl.
      destruct (_ >? _); reflexivity.
Qed.

(** A first-seen Tombstone is refused; a stale gossip is refused even
    when its state ranks higher. *)
Lemma acceptGossip_spec_witness :
  acceptGossip None (newMember nonLocalAddr Tombstone 42) = false
  ∧ acceptGossip (Some (newMember nonLocalAddr Alive 43))
                 (newMember nonLocalAddr Tombstone 42) = false.
Proof.
  destruct (acceptGossip_spec (newMember nonLocalAddr Tombstone 42))
    as (Hfirst & _ & Hold).
  split.
  - apply Hfirst. reflexivity.
  - destruct (Hold (newMember nonLocalAddr Alive 43)) as (_ & Holder & _).
    apply Holder. reflexivity.
Defined.

End MemberOverrides.

(** ** Wire compatibility shims *)

Section Shims.

Lemma validateIncoming_not_tombstone (c : Change.t) :
  Change.Status c ≠ Tombstone →
  Change.validateIncoming c = c
  ∨ (Change.Status c = Faulty ∧ Change.Tombstone c = true
     ∧ Change.validateIncoming c = Change.withStatus c Tombstone).
Proof.
  intros _. unfold Change.validateIncoming.
  destruct (String.eqb_spec (Change.Status c) Faulty) as [Hf | Hf];
    destruct (Change.Tombstone c) eqn:Hflag; cbn [andb]; auto.
Qed.

(** C4. A change in the legacy wire encoding, which knows the status
    Faulty with the Tombstone flag clear (a faulty member) or set (a
    tombstone) and has no status Tombstone, survives [validateIncoming]
    followed by [validateOutgoing] unchanged. This holds for every change
    whose status is not Tombstone, and so for everything
    [validateOutgoing] sends. (A change whose status is already Tombstone
    is not in that encoding; it comes back as Faulty with the flag
    set.) *)
Theorem validate_roundtrip (c : Change.t) :
  (Change.Status c = Faulty →
     Change.validateOutgoing (Change.validateIncoming c) = c)
  ∧ (Change.Status c ≠ Tombstone →
     Change.validateOutgoing (Change.validateIncoming c) = c)
  ∧ Change.validateOutgoing (Change.validateIncoming (Change.validateOutgoing c))
    = Change.validateOutgoing c
  ∧ (Change.Status c = Tombstone →
     Change.validateOutgoing (Change.validateIncoming c) =
     Change.withTombstone (Change.withStatus c Faulty) true).
Proof.
  assert (Hlegacy : ∀ c' : Change.t,
             Change.Status c' ≠ Tombstone →
             Change.validateOutgoing (Change.validateIncoming c') = c').
  { intros c' Hs.
    destruct (validateIncoming_not_tombstone c' Hs) as [-> | (Hf & Hflag & ->)].
    - unfold Change.validateOutgoing.
      apply String.eqb_neq in Hs. rewrite Hs. reflexivity.
    - destruct c' as [src sinc addr inc st flag labels ts].
      cbn in Hf, Hflag. subst st flag. reflexivity. }
  split; [| split; [| split]].
  - intros Hf. apply Hlegacy. rewrite Hf. discriminate.
  - apply Hlegacy.
  - apply Hlegacy. unfold Change.validateOutgoing.
    destruct (String.eqb_spec (Change.Status c) Tombstone) as [Hs | Hs].
    + cbn. discriminate.
    + exact Hs.
  - intros Hs. destruct c as [src sinc addr inc st flag labels ts].
    cbn in Hs. subst st. reflexivity.
Qed.

(** The legacy encoding of a tombstone, Faulty with the flag set, makes the
    round trip. *)
Lemma validate_roundtrip_witness :
  Change.validateOutgoing (Change.validateIncoming legacyTombstoneChange)
  = legacyTombstoneChange.
Proof.
  apply (proj1 (validate_roundtrip legacyTombstoneChange)). reflexivity.
Defined.

(** Outside the legacy encoding the round trip is not the identity: a
    change whose status is already Tombstone has its status rewritten. *)
Lemma validate_roundtrip_fails_on_tombstone :
  Change.Status tombstoneChange = Tombstone
  ∧ Change.Tombstone tombstoneChange = true
  ∧ Change.validateOutgoing (Change.validateIncoming tombstoneChange) ≠ tombstoneChange.
Proof.
  split; [reflexivity | split; [reflexivity |]].
  intros Heq. apply (f_equal Change.Status) in Heq. by_evaluation_in Heq.
Qed.

End Shims.

(** ** Fixed-width integers *)

Section Bits.

Lemma uint32_range (z : Z) : 0 <= Go.uint32 z < 2 ^ 32.
Proof. unfold Go.uint32. apply Z.mod_pos_bound. reflexivity. Qed.

Lemma int32_small (z : Z) : - 2 ^ 31 <= z < 2 ^ 31 → Go.int32 z = z.
Proof. intros Hz. unfold Go.int32. rewrite Z.mod_small; lia. Qed.

Lemma int32_large (z : Z) : 2 ^ 31 <= z < 2 ^ 32 → Go.int32 z = z - 2 ^ 32.
Proof.
  intros Hz. unfold Go.int32.
  replace (z + 2 ^ 31) with (z - 2 ^ 31 + 1 * 2 ^ 32) by lia.
  rewrite Z.mod_add by lia. rewrite Z.mod_small; lia.
Qed.

Lemma log2_uint32 (a : Z) : 0 <= a < 2 ^ 32 → Z.log2 a < 32.
Proof.
  intros Ha. destruct (Z.eq_dec a 0) as [-> | Hne]; [reflexivity |].
  apply Z.log2_lt_pow2; lia.
Qed.

Lemma lxor_uint32 (a b : Z) :
  0 <= a < 2 ^ 32 → 0 <= b < 2 ^ 32 → 0 <= Z.lxor a b < 2 ^ 32.
Proof.
  intros Ha Hb.
  assert (Hnn : 0 <= Z.lxor a b) by (apply Z.lxor_nonneg; lia).
  split; [exact Hnn |].
  destruct (Z.eq_dec (Z.lxor a b) 0) as [-> | Hne]; [reflexivity |].
  apply Z.log2_lt_pow2; [lia |].
  pose proof (Z.log2_lxor a b (proj1 Ha) (proj1 Hb)).
  pose proof (log2_uint32 a Ha). pose proof (log2_uint32 b Hb). lia.
Qed.

Lemma shiftr_uint32 (a n : Z) :
  0 <= a < 2 ^ 32 → 0 <= n → 0 <= Z.shiftr a n < 2 ^ 32.
Proof.
  intros Ha Hn. rewrite Z.shiftr_div_pow2 by exact Hn.
  assert (Hp : 0 < 2 ^ n) by (apply Z.pow_pos_nonneg; lia).
  split; [apply Z.div_pos; lia |].
  apply Z.div_lt_upper_bound; [exact Hp | nia].
Qed.

(** Setting the lowest bit of an even number adds it. *)
Lemma lor_even_bit (k r : Z) : 0 <= r < 2 → Z.lor (2 * k) r = 2 * k + r.
Proof.
  intros Hr.
  assert (Hland : Z.land (2 * k) r = 0).
  { assert (r = 0 ∨ r = 1) as [-> | ->] by lia; [apply Z.land_0_r |].
    change 1 with (Z.ones 1). rewrite Z.land_ones by lia.
    change (2 ^ 1) with 2. rewrite Z.mul_comm. apply Z.mod_mul. lia. }
  rewrite (Z.add_nocarry_lxor _ _ Hland). symmetry. apply Z.lxor_lor. exact Hland.
Qed.

(** The expression by which [checksum] converts its [uint32] to [int32] is
    the two's-complement reading of the 32 bits. *)
Lemma signedChecksum_int32 (z : Z) :
  0 <= z < 2 ^ 32 → LabelMap.signedChecksum z = Go.int32 z.
Proof.
  intros Hz. unfold LabelMap.signedChecksum.
  rewrite Z.shiftr_div_pow2, Z.shiftl_mul_pow2 by lia.
  change (Z.land z 1) with (Z.land z (Z.ones 1)). rewrite Z.land_ones by lia.
  change (2 ^ 1) with 2.
  pose proof (Z.div_mod z 2 ltac:(lia)) as Hdm.
  pose proof (Z.mod_pos_bound z 2 ltac:(lia)) as Hr.
  rewrite (int32_small (z / 2)), (int32_small (z mod 2)) by lia.
  destruct (Z.lt_ge_cases z (2 ^ 31)) as [Hlow | Hhigh].
  - rewrite (int32_small (z / 2 * 2)), (int32_small z) by lia.
    rewrite (Z.mul_comm (z / 2) 2), lor_even_bit by lia. lia.
  - rewrite (int32_large (z / 2 * 2)), (int32_large z) by lia.
    replace (z / 2 * 2 - 2 ^ 32) with (2 * (z / 2 - 2 ^ 31)) by lia.
    rewrite lor_even_bit by lia. lia.
Qed.

End Bits.

(** ** The FarmHash model stays within 32 bits and meets the test vectors *)

Section FarmFacts.

Lemma fmix_range (h : Z) : 0 <= Farm.fmix h < 2 ^ 32.
Proof.
  unfold Farm.fmix. cbv zeta.
  apply lxor_uint32; [apply uint32_range |].
  apply shiftr_uint32; [apply uint32_range | lia].
Qed.

Lemma Hash32_range (s : list Z) : 0 <= Farm.Hash32 s < 2 ^ 32.
Proof.
  unfold Farm.Hash32. cbv zeta.
  destruct (length s <=? 24)%nat.
  - destruct (length s <=? 12)%nat; [destruct (length s <=? 4)%nat |].
    + unfold Farm.hash32Len0to4. cbv zeta.
      destruct (foldl _ _ s) as [b c]. apply fmix_range.
    + apply fmix_range.
    + apply fmix_range.
  - destruct (Farm.hash32Loop _ _ _ _ _) as [[h g] f]. apply uint32_range.
Qed.

Lemma Fingerprint32_range (s : string) : 0 <= Farm.Fingerprint32 s < 2 ^ 32.
Proof. apply Hash32_range. Qed.

(** member_test.go: "the number 1613250528 is the farmhash fingerprint of
    /hello/world". *)
Lemma Fingerprint32_hello_world : Farm.Fingerprint32 "/hello/world" = 1613250528.
Proof. vm_compute. reflexivity. Qed.

(** member_test.go: "the number -1494888142 is the farmhash fingerprint of
    /hello/world xorred with the fingerprint of /foo/bar". *)
Lemma Fingerprint32_foo_bar :
  Farm.Fingerprint32 "/foo/bar" = 3335384786
  ∧ Go.int32 (Z.lxor 1613250528 3335384786) = -1494888142.
Proof. split; vm_compute; reflexivity. Qed.

Lemma Fingerprint32_zero_label : Farm.Fingerprint32 "/k/ag2tlaaxq" = 0.
Proof. vm_compute. reflexivity. Qed.

End FarmFacts.

(** ** The label checksum *)

Section ChecksumFacts.

Variable Fingerprint32 : string → Z.

Lemma checksumLoop_from (acc : Z) (entries : list (string * string)) :
  foldl (LabelMap.checksumStep Fingerprint32) acc entries
  = Z.lxor acc (LabelMap.xorFold (LabelMap.fingerprints Fingerprint32 entries)).
Proof.
  revert acc. induction entries as [| kv entries IH]; intros acc; cbn.
  - symmetry. apply Z.lxor_0_r.
  - rewrite IH. unfold LabelMap.checksumStep, LabelMap.entryBytes.
    apply Z.lxor_assoc.
Qed.

Lemma checksumLoop_xorFold (entries : list (string * string)) :
  LabelMap.checksumLoop Fingerprint32 entries
  = LabelMap.xorFold (LabelMap.fingerprints Fingerprint32 entries).
Proof. unfold LabelMap.checksumLoop. rewrite checksumLoop_from. apply Z.lxor_0_l. Qed.

Lemma xorFold_permutation (fps fps' : list Z) :
  fps ≡ₚ fps' → LabelMap.xorFold fps = LabelMap.xorFold fps'.
Proof.
  unfold LabelMap.xorFold.
  induction 1 as [| x l l' _ IH | x y l | l l' l'' _ IH1 _ IH2]; cbn.
  - reflexivity.
  - rewrite IH. reflexivity.
  - rewrite <- (Z.lxor_assoc y x), <- (Z.lxor_assoc x y), (Z.lxor_comm y x).
    reflexivity.
  - rewrite IH1. exact IH2.
Qed.

Lemma checksumOver_permutation (entries entries' : list (string * string)) :
  entries ≡ₚ entries' →
  LabelMap.checksumOver Fingerprint32 entries
  = LabelMap.checksumOver Fingerprint32 entries'.
Proof.
  intros Hperm. unfold LabelMap.checksumOver.
  rewrite !checksumLoop_xorFold. f_equal.
  apply xorFold_permutation. unfold LabelMap.fingerprints.
  apply fmap_Permutation. exact Hperm.
Qed.

Lemma xorFold_range (fps : list Z) :
  Forall (λ fp, 0 <= fp < 2 ^ 32) fps → 0 <= LabelMap.xorFold fps < 2 ^ 32.
Proof.
  induction 1 as [| fp fps Hfp _ IH]; cbn.
  - split; [lia | reflexivity].
  - apply lxor_uint32; assumption.
Qed.

Lemma checksum_empty : LabelMap.checksum Fingerprint32 ∅ = 0.
Proof. unfold LabelMap.checksum. rewrite map_to_list_empty. reflexivity. Qed.

Lemma checksum_singleton (key value : string) :
  LabelMap.checksum Fingerprint32 {[ key := value ]}
  = LabelMap.signedChecksum (Fingerprint32 ("/" +:+ key +:+ "/" +:+ value)).
Proof.
  unfold LabelMap.checksum. rewrite map_to_list_singleton.
  unfold LabelMap.checksumOver. rewrite checksumLoop_xorFold. cbn.
  rewrite Z.lxor_0_r. reflexivity.
Qed.

Lemma checksum_insert (key value : string) (l : gmap string string) :
  l !! key = None →
  LabelMap.checksum Fingerprint32 (<[ key := value ]> l)
  = LabelMap.checksumOver Fingerprint32 ((key, value) :: map_to_list l).
Proof.
  intros Hfresh. unfold LabelMap.checksum.
  apply checksumOver_permutation. apply map_to_list_insert. exact Hfresh.
Qed.

(** C5. Whatever order [range] yields the labels in, [checksum] returns the
    same value: the XOR of the 32-bit fingerprints of the labels'
    ["/key/value"] strings, read as an [int32]. *)
Theorem checksum_order_independent
  (Hrange : ∀ s, 0 <= Fingerprint32 s < 2 ^ 32)
  (l : gmap string string) (entries entries' : list (string * string)) :
  LabelMap.rangeOrder l entries →
  LabelMap.rangeOrder l entries' →
  LabelMap.checksumOver Fingerprint32 entries
  = LabelMap.checksumOver Fingerprint32 entries'
  ∧ LabelMap.checksumOver Fingerprint32 entries = LabelMap.checksum Fingerprint32 l
  ∧ LabelMap.checksum Fingerprint32 l
    = Go.int32 (LabelMap.xorFold (LabelMap.fingerprints Fingerprint32 entries)).
Proof.
  unfold LabelMap.rangeOrder. intros Horder Horder'.
  assert (Hsame : LabelMap.checksumOver Fingerprint32 entries
                  = LabelMap.checksum Fingerprint32 l)
    by (apply checksumOver_permutation; exact Horder).
  split; [| split].
  - apply checksumOver_permutation. rewrite Horder, Horder'. reflexivity.
  - exact Hsame.
  - rewrite <- Hsame. unfold LabelMap.checksumOver.
    rewrite checksumLoop_xorFold. apply signedChecksum_int32.
    apply xorFold_range. unfold LabelMap.fingerprints.
    apply Forall_fmap, Forall_forall. intros kv _. apply Hrange.
Qed.

End ChecksumFacts.

(** With the FarmHash fingerprint: the two labels of
    [TestMemberChecksumStringMultiLabels], yielded in either order. *)
Lemma checksum_order_independent_witness :
  LabelMap.checksumOver Farm.Fingerprint32 [("hello", "world"); ("foo", "bar")]
  = LabelMap.checksumOver Farm.Fingerprint32 [("foo", "bar"); ("hello", "world")]
  ∧ LabelMap.checksumOver Farm.Fingerprint32 [("hello", "world"); ("foo", "bar")]
    = LabelMap.checksum Farm.Fingerprint32 (<[ "foo" := "bar" ]> {[ "hello" := "world" ]})
  ∧ LabelMap.checksum Farm.Fingerprint32 (<[ "foo" := "bar" ]> {[ "hello" := "world" ]})
    = Go.int32 (LabelMap.xorFold
                  (LabelMap.fingerprints Farm.Fingerprint32
                     [("hello", "world"); ("foo", "bar")])).
Proof.
  apply (checksum_order_independent Farm.Fingerprint32 Fingerprint32_range
           (<[ "foo" := "bar" ]> {[ "hello" := "world" ]})).
  - unfold LabelMap.rangeOrder. vm_compute.
    first [ reflexivity | apply perm_swap ].
  - unfold LabelMap.rangeOrder. vm_compute.
    first [ reflexivity | apply perm_swap ].
Defined.

(** ** The checksum string of a member *)

Section ChecksumString.

Variable Fingerprint32 : string → Z.

Lemma checksumString_zero (l : gmap string string) (b : string) :
  LabelMap.checksum Fingerprint32 l = 0 →
  LabelMap.checksumString Fingerprint32 l b = b.
Proof. intros Hz. unfold LabelMap.checksumString. rewrite Hz. reflexivity. Qed.

Lemma checksumString_nonzero (l : gmap string string) (b : string) (n : Z) :
  LabelMap.checksum Fingerprint32 l = n → n ≠ 0 →
  LabelMap.checksumString Fingerprint32 l b = b +:+ "#labels" +:+ Go.Itoa n.
Proof.
  intros Hn Hne. unfold LabelMap.checksumString. rewrite Hn.
  apply Z.eqb_neq in Hne. rewrite Hne. reflexivity.
Qed.

(** C6. When the label checksum of a member is zero, nothing is written
    for the labels: the checksum string is the address, the status and the
    incarnation number, and it is the checksum string of the same member
    without labels (whose label checksum is zero too). *)
Theorem checksumString_omits_zero_checksum (m : Member.t) (b : string) :
  LabelMap.checksum Fingerprint32 (Member.Labels m) = 0 →
  Member.checksumString Fingerprint32 m b
  = b +:+ Member.Address m +:+ Member.Status m +:+ Go.Itoa (Member.Incarnation m)
  ∧ LabelMap.checksum Fingerprint32 (Member.Labels (Member.withLabels m ∅)) = 0
  ∧ Member.checksumString Fingerprint32 m b
    = Member.checksumString Fingerprint32 (Member.withLabels m ∅) b.
Proof.
  intros Hz. unfold Member.checksumString.
  split; [| split].
  - apply checksumString_zero. exact Hz.
  - apply checksum_empty.
  - rewrite (checksumString_zero _ _ Hz).
    cbn [Member.withLabels Member.Labels Member.Address Member.Status Member.Incarnation].
    rewrite checksumString_zero by apply checksum_empty. reflexivity.
Qed.

(** C8. With the fingerprints that FarmHash gives the two label strings,
    the member of member_test.go has the checksum string
    ["192.168.2.1:1234alive42"] without labels; with the label hello=world
    the suffix ["#labels1613250528"] is appended; with the labels
    hello=world and foo=bar the suffix is ["#labels-1494888142"], whichever
    of the two labels is inserted first. *)
Theorem checksumString_test_vectors :
  Fingerprint32 "/hello/world" = 1613250528 →
  Fingerprint32 "/foo/bar" = 3335384786 →
  Member.checksumString Fingerprint32 (testMember ∅) ""
  = "192.168.2.1:1234alive42"
  ∧ Member.checksumString Fingerprint32 (testMember (<[ "hello" := "world" ]> ∅)) ""
    = "192.168.2.1:1234alive42#labels1613250528"
  ∧ Member.checksumString Fingerprint32
      (testMember (<[ "foo" := "bar" ]> (<[ "hello" := "world" ]> ∅))) ""
    = "192.168.2.1:1234alive42#labels-1494888142"
  ∧ Member.checksumString Fingerprint32
      (testMember (<[ "hello" := "world" ]> (<[ "foo" := "bar" ]> ∅))) ""
    = "192.168.2.1:1234alive42#labels-1494888142".
Proof.
  intros Hhello Hfoo.
  assert (Hone : LabelMap.checksum Fingerprint32 (<[ "hello" := "world" ]> ∅)
                 = 1613250528).
  { rewrite checksum_insert by apply lookup_empty.
    rewrite map_to_list_empty. unfold LabelMap.checksumOver.
    rewrite checksumLoop_xorFold. cbn.
    change ("/" +:+ "hello" +:+ "/" +:+ "world") with "/hello/world".
    rewrite Hhello. reflexivity. }
  assert (Htwo : LabelMap.checksum Fingerprint32
                   (<[ "foo" := "bar" ]> (<[ "hello" := "world" ]> ∅))
                 = -1494888142).
  { rewrite checksum_insert by reflexivity.
    rewrite (checksumOver_permutation Fingerprint32 _
               [("foo", "bar"); ("hello", "world")]).
    - unfold LabelMap.checksumOver. rewrite checksumLoop_xorFold. cbn.
      change ("/" +:+ "hello" +:+ "/" +:+ "world") with "/hello/world".
      change ("/" +:+ "foo" +:+ "/" +:+ "bar") with "/foo/bar".
      rewrite Hhello, Hfoo. reflexivity.
    - constructor. rewrite map_to_list_insert by apply lookup_empty.
      rewrite map_to_list_empty. reflexivity. }
  assert (Hcomm : <[ "hello" := "world" ]> (<[ "foo" := "bar" ]> (∅ : gmap string string))
                  = <[ "foo" := "bar" ]> (<[ "hello" := "world" ]> ∅)).
  { apply insert_insert_ne. discriminate. }
  split; [| split; [| split]].
  - unfold Member.checksumString.
    rewrite checksumString_zero by apply checksum_empty. reflexivity.
  - unfold Member.checksumString.
    rewrite (checksumString_nonzero _ _ _ Hone) by discriminate. reflexivity.
  - unfold Member.checksumString.
    rewrite (checksumString_nonzero _ _ _ Htwo) by discriminate. reflexivity.
  - rewrite Hcomm. unfold Member.checksumString.
    rewrite (checksumString_nonzero _ _ _ Htwo) by discriminate. reflexivity.
Qed.

End ChecksumString.

(** With the FarmHash fingerprint, the label k=ag2tlaaxq has checksum 0:
    a member carrying it has the checksum string of the member without
    labels. *)
Lemma checksumString_omits_zero_checksum_witness :
  Member.checksumString Farm.Fingerprint32 (testMember zeroFingerprintLabels) ""
  = "192.168.2.1:1234alive42"
  ∧ Member.checksumString Farm.Fingerprint32 (testMember zeroFingerprintLabels) ""
    = Member.checksumString Farm.Fingerprint32 (testMember ∅) "".
Proof.
  destruct (checksumString_omits_zero_checksum Farm.Fingerprint32
              (testMember zeroFingerprintLabels) "") as (Hstr & _ & Hsame).
  - vm_compute. reflexivity.
  - split; [exact Hstr | exact Hsame].
Defined.

(** The FarmHash fingerprint has the two values that the test vectors
    assume. *)
Lemma checksumString_test_vectors_witness :
  Member.checksumString Farm.Fingerprint32 (testMember (<[ "hello" := "world" ]> ∅)) ""
  = "192.168.2.1:1234alive42#labels1613250528"
  ∧ Member.checksumString Farm.Fingerprint32
      (testMember (<[ "foo" := "bar" ]> (<[ "hello" := "world" ]> ∅))) ""
    = "192.168.2.1:1234alive42#labels-1494888142".
Proof.
  destruct (checksumString_test_vectors Farm.Fingerprint32) as (_ & Hone & Htwo & _).
  - vm_compute. reflexivity.
  - vm_compute. reflexivity.
  - split; [exact Hone | exact Htwo].
Defined.

(** * Further properties of the code *)

(** ** Members and changes converted into each other *)

Section Populate.

(** X1. [populateSubject] followed by [populateFromChange] gives the member
    back, whatever member and change the two start from; and the other way
    round the change is restored. A [nil] member leaves the change as it
    is. *)
Theorem populate_roundtrip (m m0 : Member.t) (c : Change.t) :
  populateFromChange m0 (populateSubject c (Some m)) = m
  ∧ populateSubject c (Some (populateFromChange m0 c)) = c
  ∧ populateSubject c None = c
  ∧ populateSource c None = c.
Proof.
  destruct m as [addr st inc labels], c as [src sinc caddr cinc cst flag cl ts].
  repeat split.
Qed.

(** X2. [populateSource] and [populateSubject] write disjoint fields: they
    commute, the member made from a change does not depend on its source,
    and neither touches the Tombstone flag or the timestamp. *)
Theorem populate_frame (c : Change.t) (subject source : option Member.t)
    (m0 : Member.t) :
  populateSource (populateSubject c subject) source
  = populateSubject (populateSource c source) subject
  ∧ populateFromChange m0 (populateSource c source) = populateFromChange m0 c
  ∧ Change.Tombstone (populateSource (populateSubject c subject) source)
    = Change.Tombstone c
  ∧ Change.Timestamp (populateSource (populateSubject c subject) source)
    = Change.Timestamp c.
Proof.
  destruct c as [src sinc caddr cinc cst flag cl ts].
  destruct subject as [[addr st inc labels] |], source as [[saddr sst si sl] |];
    repeat split.
Qed.

End Populate.

(** ** The decision functions agree with each other *)

Section Agreement.

(** X3. [nonLocalOverride] is the address test followed by [overrides] against
    the change that describes the member; [acceptGossip] with a stored
    member is [overrides] between the changes that describe the two
    members, and so it is [nonLocalOverride] when the addresses agree. *)
Theorem overrides_agreement (m : Member.t) (change c0 c1 : Change.t)
    (gossip : Member.t) :
  Member.nonLocalOverride m change
  = String.eqb (Change.Address change) (Member.Address m)
    && Change.overrides change (populateSubject c0 (Some m))
  ∧ acceptGossip (Some m) gossip
    = Change.overrides (populateSubject c1 (Some gossip))
                       (populateSubject c0 (Some m))
  ∧ (Member.Address gossip = Member.Address m →
     acceptGossip (Some m) gossip
     = Member.nonLocalOverride m (populateSubject c1 (Some gossip))).
Proof.
  unfold Member.nonLocalOverride, acceptGossip, Change.overrides.
  rewrite andb_false_r. cbn.
  split; [| split].
  - destruct (String.eqb _ _); reflexivity.
  - repeat (destruct (_ <? _) || destruct (_ >? _)); reflexivity.
  - intros Haddr. rewrite Haddr, String.eqb_refl. cbn.
    repeat (destruct (_ <? _) || destruct (_ >? _)); reflexivity.
Qed.

(** Gossip about a member at the same address, at a higher
    incarnation. *)
Lemma overrides_agreement_witness :
  acceptGossip (Some (newMember nonLocalAddr Faulty 42))
               (newMember nonLocalAddr Alive 43)
  = Member.nonLocalOverride (newMember nonLocalAddr Faulty 42)
      (populateSubject (newChange "" "" 0) (Some (newMember nonLocalAddr Alive 43))).
Proof.
  apply (proj2 (proj2 (overrides_agreement (newMember nonLocalAddr Faulty 42)
                         (newChange "" "" 0) (newChange "" "" 0) (newChange "" "" 0)
                         (newMember nonLocalAddr Alive 43)))).
  reflexivity.
Defined.

Lemma nonLocalOverride_true (m : Member.t) (change : Change.t) :
  Member.nonLocalOverride m change = true ↔
  Change.Address change = Member.Address m
  ∧ (Member.Incarnation m < Change.Incarnation change
     ∨ (Change.Incarnation change = Member.Incarnation m
        ∧ statePrecedence (Member.Status m)
          < statePrecedence (Change.Status change))).
Proof.
  unfold Member.nonLocalOverride.
  destruct (String.eqb_spec (Change.Address change) (Member.Address m)) as [Ha | Ha];
    cbn [negb].
  - zcmp; split; intros Hyp; try reflexivity; try discriminate Hyp;
      (split; [exact Ha | lia]) || lia.
  - split; [discriminate | intros (Hyp & _); contradiction].
Qed.

Lemma acceptGossip_some_true (old gossip : Member.t) :
  acceptGossip (Some old) gossip = true ↔
  Member.Incarnation old < Member.Incarnation gossip
  ∨ (Member.Incarnation gossip = Member.Incarnation old
     ∧ statePrecedence (Member.Status old)
       < statePrecedence (Member.Status gossip)).
Proof.
  unfold acceptGossip. rewrite andb_false_r.
  zcmp; split; intros Hyp; try reflexivity; try discriminate Hyp; lia.
Qed.

(** X4. A change that [nonLocalOverride] lets through, once applied with
    [populateFromChange], leaves the address as it was, does not lower the
    incarnation, raises the state precedence when the incarnation stays,
    and is refused when it arrives a second time. *)
Theorem nonLocalOverride_apply (m : Member.t) (change : Change.t) :
  Member.nonLocalOverride m change = true →
  Member.Address (populateFromChange m change) = Member.Address m
  ∧ Member.Incarnation m <= Member.Incarnation (populateFromChange m change)
  ∧ (Member.Incarnation (populateFromChange m change) = Member.Incarnation m →
     statePrecedence (Member.Status m)
     < statePrecedence (Member.Status (populateFromChange m change)))
  ∧ Member.nonLocalOverride (populateFromChange m change) change = false.
Proof.
  intros Hacc. apply nonLocalOverride_true in Hacc. destruct Hacc as (Ha & Hlex).
  cbn. repeat split.
  - exact Ha.
  - lia.
  - lia.
  - apply not_true_is_false. intros Hagain.
    apply nonLocalOverride_true in Hagain. cbn in Hagain. lia.
Qed.

Lemma nonLocalOverride_apply_witness :
  Member.Incarnation (newMember nonLocalAddr Alive 42)
  <= Member.Incarnation (populateFromChange (newMember nonLocalAddr Alive 42)
                           (newChange nonLocalAddr Suspect 42))
  ∧ Member.nonLocalOverride
      (populateFromChange (newMember nonLocalAddr Alive 42)
         (newChange nonLocalAddr Suspect 42))
      (newChange nonLocalAddr Suspect 42) = false.
Proof.
  destruct (nonLocalOverride_apply (newMember nonLocalAddr Alive 42)
              (newChange nonLocalAddr Suspect 42))
    as (_ & Hinc & _ & Hagain).
  - reflexivity.
  - split; [exact Hinc | exact Hagain].
Defined.

(** X5. A stored Tombstone gives way only to a strictly higher incarnation:
    to gossip, to a change in [nonLocalOverride], and between changes. *)
Theorem tombstone_is_top (old gossip : Member.t) (change c c2 : Change.t) :
  Member.Status old = Tombstone →
  Change.Status c2 = Tombstone →
  (acceptGossip (Some old) gossip = true →
     Member.Incarnation old < Member.Incarnation gossip)
  ∧ (Member.nonLocalOverride old change = true →
     Member.Incarnation old < Change.Incarnation change)
  ∧ (Change.overrides c c2 = true →
     Change.Incarnation c2 < Change.Incarnation c).
Proof.
  intros Hold Hc2.
  pose proof (statePrecedence_range (Member.Status gossip)).
  pose proof (statePrecedence_range (Change.Status change)).
  pose proof (statePrecedence_range (Change.Status c)).
  split; [| split]; intros Hacc.
  - apply acceptGossip_some_true in Hacc. rewrite Hold in Hacc.
    change (statePrecedence Tombstone) with 4 in Hacc. lia.
  - apply nonLocalOverride_true in Hacc. rewrite Hold in Hacc.
    change (statePrecedence Tombstone) with 4 in Hacc. lia.
  - apply overrides_lex in Hacc. rewrite Hc2 in Hacc.
    change (statePrecedence Tombstone) with 4 in Hacc. lia.
Qed.

Lemma tombstone_is_top_witness :
  Member.Incarnation (newMember nonLocalAddr Tombstone 42)
  < Member.Incarnation (newMember nonLocalAddr Alive 43).
Proof.
  apply (proj1 (tombstone_is_top (newMember nonLocalAddr Tombstone 42)
                  (newMember nonLocalAddr Alive 43)
                  (newChange nonLocalAddr Alive 43)
                  (newChange nonLocalAddr Alive 43)
                  (newChange nonLocalAddr Tombstone 42)
                  eq_refl eq_refl)).
  reflexivity.
Defined.

(** X6. Walking a member back to Alive takes a higher incarnation: when the
    stored status is one of the five known ones, gossip that says Alive is
    accepted only with a strictly higher incarnation. *)
Theorem alive_needs_reincarnation (old gossip : Member.t) :
  knownStatus (Member.Status old) →
  Member.Status gossip = Alive →
  acceptGossip (Some old) gossip = true →
  Member.Incarnation old < Member.Incarnation gossip.
Proof.
  intros Hknown Halive Hacc.
  apply acceptGossip_some_true in Hacc. rewrite Halive in Hacc.
  pose proof (statePrecedence_known _ Hknown).
  change (statePrecedence Alive) with 0 in Hacc. lia.
Qed.

Lemma alive_needs_reincarnation_witness :
  Member.Incarnation (newMember nonLocalAddr Suspect 42)
  < Member.Incarnation (newMember nonLocalAddr Alive 43).
Proof.
  apply (alive_needs_reincarnation (newMember nonLocalAddr Suspect 42)
           (newMember nonLocalAddr Alive 43)).
  - right; left; reflexivity.
  - reflexivity.
  - reflexivity.
Defined.

Lemma statePrecedence_inj (s1 s2 : string) :
  knownStatus s1 → knownStatus s2 →
  statePrecedence s1 = statePrecedence s2 → s1 = s2.
Proof.
  intros [-> | [-> | [-> | [-> | ->]]]] [-> | [-> | [-> | [-> | ->]]]] Heq;
    first [ reflexivity | by_evaluation_in Heq ].
Qed.

(** X7. On changes whose statuses are among the five known ones [overrides]
    decides every pair: one of the two overrides the other unless they
    carry the same incarnation and the same status. *)
Theorem overrides_total_on_known (a b : Change.t) :
  knownStatus (Change.Status a) →
  knownStatus (Change.Status b) →
  Change.overrides a b = true
  ∨ Change.overrides b a = true
  ∨ (Change.Incarnation a = Change.Incarnation b
     ∧ Change.Status a = Change.Status b).
Proof.
  intros Ha Hb.
  destruct (Z.lt_trichotomy (Change.Incarnation a) (Change.Incarnation b))
    as [Hlt | [Heq | Hgt]].
  - right; left. apply overrides_lex. lia.
  - destruct (Z.lt_trichotomy (statePrecedence (Change.Status a))
                              (statePrecedence (Change.Status b)))
      as [Hplt | [Hpeq | Hpgt]].
    + right; left. apply overrides_lex. lia.
    + right; right. split; [exact Heq |].
      apply statePrecedence_inj; assumption.
    + left. apply overrides_lex. lia.
  - left. apply overrides_lex. lia.
Qed.

Lemma overrides_total_on_known_witness :
  Change.overrides (newChange localAddr Leave 42) (newChange localAddr Faulty 42) = true
  ∨ Change.overrides (newChange localAddr Faulty 42) (newChange localAddr Leave 42) = true
  ∨ (Change.Incarnation (newChange localAddr Leave 42)
     = Change.Incarnation (newChange localAddr Faulty 42)
     ∧ Change.Status (newChange localAddr Leave 42)
       = Change.Status (newChange localAddr Faulty 42)).
Proof.
  apply (overrides_total_on_known (newChange localAddr Leave 42)
                                  (newChange localAddr Faulty 42)).
  - right; right; right; left; reflexivity.
  - right; right; left; reflexivity.
Defined.

(** X8. What makes the local member reincarnate would also be taken by a node
    that holds the same member as Alive: when [localOverride] is true for
    a change about the member's own address and the member is Alive,
    [nonLocalOverride] is true as well. *)
Theorem localOverride_nonLocalOverride (m : Member.t) (local : string)
    (change : Change.t) :
  Member.Status m = Alive →
  Change.Address change = Member.Address m →
  Member.localOverride m local change = true →
  Member.nonLocalOverride m change = true.
Proof.
  intros Halive Haddr Hlocal.
  apply localOverride_true in Hlocal. destruct Hlocal as (_ & Hinc & Hst).
  apply nonLocalOverride_true. split; [exact Haddr |].
  rewrite Halive. change (statePrecedence Alive) with 0.
  assert (0 < statePrecedence (Change.Status change))
    by (destruct Hst as [-> | [-> | ->]]; reflexivity).
  lia.
Qed.

Lemma localOverride_nonLocalOverride_witness :
  Member.nonLocalOverride (newMember localAddr Alive 42)
                          (newChange localAddr Faulty 42) = true.
Proof.
  apply (localOverride_nonLocalOverride (newMember localAddr Alive 42) localAddr
           (newChange localAddr Faulty 42));
    reflexivity.
Defined.

End Agreement.

(** ** More on the wire shims *)

Section ShimFacts.

(** X9. What goes out never carries the status Tombstone; [validateOutgoing]
    changes nothing when applied again, leaves a change whose status is
    not Tombstone alone, and touches the status and the flag only. *)
Theorem validateOutgoing_legacy (c : Change.t) :
  Change.Status (Change.validateOutgoing c) ≠ Tombstone
  ∧ Change.validateOutgoing (Change.validateOutgoing c) = Change.validateOutgoing c
  ∧ (Change.Status c ≠ Tombstone → Change.validateOutgoing c = c)
  ∧ Change.withTombstone (Change.withStatus (Change.validateOutgoing c) "") false
    = Change.withTombstone (Change.withStatus c "") false.
Proof.
  destruct c as [src sinc addr inc st flag labels ts].
  unfold Change.validateOutgoing. cbn.
  destruct (String.eqb_spec st Tombstone) as [Hst | Hst]; cbn.
  - repeat split; [discriminate | congruence].
  - apply String.eqb_neq in Hst as Hst'. rewrite Hst'. repeat split; assumption.
Qed.

(** X10. Out and in again, as between two nodes of this version: a Tombstone
    arrives as a Tombstone, with the flag set; a change that is neither a
    Tombstone nor Faulty with the flag set arrives as it left. In every
    case the state precedence that arrives is at least the one that
    left. *)
Theorem validate_out_in (c : Change.t) :
  (Change.Status c = Tombstone →
     Change.validateIncoming (Change.validateOutgoing c)
     = Change.withTombstone c true)
  ∧ (Change.Status c ≠ Tombstone →
     ¬ (Change.Status c = Faulty ∧ Change.Tombstone c = true) →
     Change.validateIncoming (Change.validateOutgoing c) = c)
  ∧ statePrecedence (Change.Status c)
    <= statePrecedence
         (Change.Status (Change.validateIncoming (Change.validateOutgoing c))).
Proof.
  destruct c as [src sinc addr inc st flag labels ts].
  unfold Change.validateOutgoing, Change.validateIncoming. cbn.
  destruct (String.eqb_spec st Tombstone) as [Hst | Hst]; cbn.
  - subst st. repeat split; [intros H'; contradiction | reflexivity].
  - destruct (String.eqb_spec st Faulty) as [Hf | Hf], flag; cbn;
      repeat split; try congruence; try lia.
    + intros _ Hn. exfalso. apply Hn. split; [exact Hf | reflexivity].
    + subst st. discriminate.
Qed.

Lemma validate_out_in_witness :
  Change.validateIncoming (Change.validateOutgoing tombstoneChange)
  = Change.withTombstone tombstoneChange true.
Proof.
  apply (proj1 (validate_out_in tombstoneChange)). reflexivity.
Defined.

(** X11. [validateIncoming] changes nothing when applied again, and what comes
    in as anything but Faulty with the flag set is left alone. *)
Theorem validateIncoming_idempotent (c : Change.t) :
  Change.validateIncoming (Change.validateIncoming c) = Change.validateIncoming c
  ∧ (¬ (Change.Status c = Faulty ∧ Change.Tombstone c = true) →
     Change.validateIncoming c = c).
Proof.
  destruct c as [src sinc addr inc st flag labels ts].
  unfold Change.validateIncoming. cbn.
  destruct (String.eqb_spec st Faulty) as [Hf | Hf]; [destruct flag |]; cbn.
  - split; [reflexivity |].
    intros Hn. exfalso. apply Hn. split; [exact Hf | reflexivity].
  - rewrite andb_false_r. split; reflexivity.
  - apply String.eqb_neq in Hf. rewrite Hf. split; reflexivity.
Qed.

(** X12. The shims rewrite Faulty and Tombstone only, so they do not change
    whether a change is pingable; and [isPingable] of the change that
    describes a member is [isReachable] of the member. Both hold exactly
    for the states of precedence 0 and 1. *)
Theorem pingable_facts (c c0 : Change.t) (m : Member.t) :
  Change.isPingable (Change.validateIncoming c) = Change.isPingable c
  ∧ Change.isPingable (Change.validateOutgoing c) = Change.isPingable c
  ∧ Change.isPingable (populateSubject c0 (Some m)) = Member.isReachable m
  ∧ (Change.isPingable c = true ↔
     statePrecedence (Change.Status c) = 0 ∨ statePrecedence (Change.Status c) = 1).
Proof.
  destruct c as [src sinc addr inc st flag labels ts].
  unfold Change.validateOutgoing, Change.validateIncoming, Change.isPingable,
    statePrecedence. cbn.
  split; [| split; [| split]].
  - destruct (String.eqb_spec st Faulty) as [-> | Hf]; [destruct flag |]; reflexivity.
  - destruct (String.eqb_spec st Tombstone) as [-> | Hf]; reflexivity.
  - reflexivity.
  - destruct (String.eqb_spec st Alive), (String.eqb_spec st Suspect),
      (String.eqb_spec st Faulty), (String.eqb_spec st Leave),
      (String.eqb_spec st Tombstone); cbn; split; intros Hyp;
      try reflexivity; try discriminate Hyp; auto;
      destruct Hyp as [Hyp | Hyp]; discriminate Hyp.
Qed.

End ShimFacts.

(** ** More on the label checksum *)

Section ChecksumAlgebra.

Variable Fingerprint32 : string → Z.

Lemma append_nil_r (s : string) : s +:+ "" = s.
Proof.
  induction s as [| a s IH]; [reflexivity |].
  change (String a (s +:+ "") = String a s). rewrite IH. reflexivity.
Qed.

Lemma append_assoc (s1 s2 s3 : string) : (s1 +:+ s2) +:+ s3 = s1 +:+ (s2 +:+ s3).
Proof.
  induction s1 as [| a s1 IH]; [reflexivity |].
  change (String a ((s1 +:+ s2) +:+ s3) = String a (s1 +:+ (s2 +:+ s3))).
  rewrite IH. reflexivity.
Qed.

(** X13. Writing to a buffer that already has contents appends to them: the
    result is the old contents followed by what is written to an empty
    buffer. So the fragments of several members written one after the
    other are the concatenation of the fragments. *)
Theorem checksumString_appends (l : gmap string string) (m : Member.t) (b : string) :
  LabelMap.checksumString Fingerprint32 l b
  = b +:+ LabelMap.checksumString Fingerprint32 l ""
  ∧ Member.checksumString Fingerprint32 m b
    = b +:+ Member.checksumString Fingerprint32 m "".
Proof.
  assert (Hlabels : ∀ l' b', LabelMap.checksumString Fingerprint32 l' b'
                             = b' +:+ LabelMap.checksumString Fingerprint32 l' "").
  { intros l' b'. unfold LabelMap.checksumString.
    destruct (_ =? 0); [symmetry; apply append_nil_r | reflexivity]. }
  split; [apply Hlabels |].
  unfold Member.checksumString.
  rewrite (Hlabels _ (b +:+ _)), (Hlabels _ ("" +:+ _)).
  rewrite !append_assoc. reflexivity.
Qed.

Lemma int32_range (z : Z) : - 2 ^ 31 <= Go.int32 z < 2 ^ 31.
Proof.
  unfold Go.int32.
  pose proof (Z.mod_pos_bound (z + 2 ^ 31) (2 ^ 32) ltac:(reflexivity)). lia.
Qed.

Lemma uint32_int32 (z : Z) : 0 <= z < 2 ^ 32 → Go.uint32 (Go.int32 z) = z.
Proof.
  intros Hz. destruct (Z.lt_ge_cases z (2 ^ 31)) as [Hlow | Hhigh].
  - rewrite int32_small by lia. unfold Go.uint32. apply Z.mod_small. lia.
  - rewrite int32_large by lia. unfold Go.uint32.
    replace (z - 2 ^ 32) with (z + (-1) * 2 ^ 32) by lia.
    rewrite Z.mod_add by lia. apply Z.mod_small. lia.
Qed.

Lemma labels_xor_range (Hrange : ∀ s, 0 <= Fingerprint32 s < 2 ^ 32)
    (entries : list (string * string)) :
  0 <= LabelMap.xorFold (LabelMap.fingerprints Fingerprint32 entries) < 2 ^ 32.
Proof.
  apply xorFold_range. unfold LabelMap.fingerprints.
  apply Forall_fmap, Forall_forall. intros kv _. apply Hrange.
Qed.

Lemma checksum_int32 (Hrange : ∀ s, 0 <= Fingerprint32 s < 2 ^ 32)
    (l : gmap string string) :
  LabelMap.checksum Fingerprint32 l
  = Go.int32 (LabelMap.xorFold (LabelMap.fingerprints Fingerprint32 (map_to_list l))).
Proof.
  unfold LabelMap.checksum, LabelMap.checksumOver.
  rewrite checksumLoop_xorFold. apply signedChecksum_int32.
  apply labels_xor_range. exact Hrange.
Qed.

Lemma uint32_checksum (Hrange : ∀ s, 0 <= Fingerprint32 s < 2 ^ 32)
    (l : gmap string string) :
  Go.uint32 (LabelMap.checksum Fingerprint32 l)
  = LabelMap.xorFold (LabelMap.fingerprints Fingerprint32 (map_to_list l)).
Proof.
  rewrite (checksum_int32 Hrange). apply uint32_int32.
  apply labels_xor_range. exact Hrange.
Qed.

(** X14. The conversion to [int32] at the end of [checksum] loses nothing: the
    result is in the range of [int32], converting it back to [uint32]
    gives the XOR of the fingerprints, and it is zero exactly when that
    XOR is zero. *)
Theorem checksum_signed_lossless
    (Hrange : ∀ s, 0 <= Fingerprint32 s < 2 ^ 32) (l : gmap string string) :
  - 2 ^ 31 <= LabelMap.checksum Fingerprint32 l < 2 ^ 31
  ∧ Go.uint32 (LabelMap.checksum Fingerprint32 l)
    = LabelMap.xorFold (LabelMap.fingerprints Fingerprint32 (map_to_list l))
  ∧ (LabelMap.checksum Fingerprint32 l = 0 ↔
     LabelMap.xorFold (LabelMap.fingerprints Fingerprint32 (map_to_list l)) = 0).
Proof.
  rewrite (checksum_int32 Hrange).
  pose proof (labels_xor_range Hrange (map_to_list l)) as Hx.
  split; [apply int32_range |]. split; [apply uint32_int32; exact Hx |].
  split.
  - intros Hz. rewrite <- (uint32_int32 _ Hx), Hz. reflexivity.
  - intros ->. reflexivity.
Qed.

(** X15. Adding a label under a new key, and removing a label, both XOR the
    fingerprint of the label's ["/key/value"] string into the checksum. *)
Theorem checksum_toggle
    (Hrange : ∀ s, 0 <= Fingerprint32 s < 2 ^ 32)
    (l : gmap string string) (key value : string) :
  (l !! key = None →
     LabelMap.checksum Fingerprint32 (<[ key := value ]> l)
     = Go.int32 (Z.lxor (Go.uint32 (LabelMap.checksum Fingerprint32 l))
                        (Fingerprint32 (LabelMap.entryBytes key value))))
  ∧ (l !! key = Some value →
     LabelMap.checksum Fingerprint32 (delete key l)
     = Go.int32 (Z.lxor (Go.uint32 (LabelMap.checksum Fingerprint32 l))
                        (Fingerprint32 (LabelMap.entryBytes key value)))).
Proof.
  rewrite (uint32_checksum Hrange).
  split; intros Hkey.
  - rewrite (checksum_int32 Hrange). f_equal.
    rewrite (xorFold_permutation _
               (LabelMap.fingerprints Fingerprint32 ((key, value) :: map_to_list l))).
    + cbn. apply Z.lxor_comm.
    + unfold LabelMap.fingerprints. apply fmap_Permutation.
      apply map_to_list_insert. exact Hkey.
  - rewrite (checksum_int32 Hrange). f_equal.
    rewrite (xorFold_permutation
               (LabelMap.fingerprints Fingerprint32 (map_to_list l))
               (LabelMap.fingerprints Fingerprint32
                  ((key, value) :: map_to_list (delete key l)))).
    + cbn. unfold LabelMap.entryBytes.
      rewrite (Z.lxor_comm (Fingerprint32 _)), Z.lxor_assoc, Z.lxor_nilpotent.
      symmetry. apply Z.lxor_0_r.
    + unfold LabelMap.fingerprints. apply fmap_Permutation. symmetry.
      apply map_to_list_delete. exact Hkey.
Qed.

(** X16. The label portions that two label maps write to the same buffer are
    equal exactly when the checksums of the maps are. *)
Theorem checksumString_eq_iff (l1 l2 : gmap string string) (b : string) :
  LabelMap.checksumString Fingerprint32 l1 b
  = LabelMap.checksumString Fingerprint32 l2 b
  ↔ LabelMap.checksum Fingerprint32 l1 = LabelMap.checksum Fingerprint32 l2.
Proof.
  split.
  - unfold LabelMap.checksumString.
    destruct (Z.eqb_spec (LabelMap.checksum Fingerprint32 l1) 0) as [H1 | H1],
             (Z.eqb_spec (LabelMap.checksum Fingerprint32 l2) 0) as [H2 | H2];
      intros Heq.
    + congruence.
    + rewrite <- (append_nil_r b) in Heq at 1.
      apply (inj (String.app b)) in Heq. discriminate Heq.
    + rewrite <- (append_nil_r b) in Heq at 2.
      apply (inj (String.app b)) in Heq. discriminate Heq.
    + apply (inj (String.app b)) in Heq.
      apply (inj (String.app "#labels")) in Heq.
      unfold Go.Itoa in Heq. apply (inj pretty) in Heq. exact Heq.
  - unfold LabelMap.checksumString. intros ->. reflexivity.
Qed.

End ChecksumAlgebra.

Lemma checksum_signed_lossless_witness :
  Go.uint32 (LabelMap.checksum Farm.Fingerprint32
               (<[ "foo" := "bar" ]> {[ "hello" := "world" ]}))
  = LabelMap.xorFold
      (LabelMap.fingerprints Farm.Fingerprint32
         (map_to_list (<[ "foo" := "bar" ]> ({[ "hello" := "world" ]} : gmap string string)))).
Proof.
  destruct (checksum_signed_lossless Farm.Fingerprint32 Fingerprint32_range
              (<[ "foo" := "bar" ]> {[ "hello" := "world" ]}))
    as (_ & Hback & _).
  exact Hback.
Defined.

Lemma checksum_toggle_witness :
  LabelMap.checksum Farm.Fingerprint32 (<[ "foo" := "bar" ]> {[ "hello" := "world" ]})
  = Go.int32 (Z.lxor (Go.uint32 (LabelMap.checksum Farm.Fingerprint32
                                   {[ "hello" := "world" ]}))
                     (Farm.Fingerprint32 (LabelMap.entryBytes "foo" "bar"))).
Proof.
  destruct (checksum_toggle Farm.Fingerprint32 Fingerprint32_range
              {[ "hello" := "world" ]} "foo" "bar") as (Hadd & _).
  apply Hadd. vm_compute. reflexivity.
Defined.

(** ** Shuffle *)

Section ShuffleFacts.

Context {P : Type} (nil : P).

(** The loop over indices that are distinct and within the new slice
    writes [members[o + i]] to the position named by the [i]-th index and
    leaves every other position as it was. *)
Lemma shuffleLoop_spec (members : list P) (rest : list nat) :
  ∀ (o : nat) (acc : list P),
    NoDup rest →
    (∀ n, n ∈ rest → (n < length acc)%nat) →
    (o + length rest ≤ length members)%nat →
    ∃ out,
      shuffleLoop members o rest acc = Some out
      ∧ length out = length acc
      ∧ (∀ i n, rest !! i = Some n → out !! n = members !! (o + i)%nat)
      ∧ (∀ n, n ∉ rest → out !! n = acc !! n).
Proof.
  induction rest as [| n rest IH]; intros o acc Hnodup Hbound Hlen.
  - exists acc. split; [reflexivity |]. split; [reflexivity |].
    split; [intros i n Hi; discriminate Hi | reflexivity].
  - apply NoDup_cons in Hnodup as [Hfresh Hnodup].
    assert (Hn : (n < length acc)%nat) by (apply Hbound; left).
    destruct (lookup_lt_is_Some_2 members o) as [p Hp]; [cbn in Hlen; lia |].
    destruct (IH (S o) (<[ n := p ]> acc) Hnodup) as (out & Hrun & Hout & Hset & Hkeep).
    { intros n' Hn'. rewrite length_insert. apply Hbound. right. exact Hn'. }
    { cbn in Hlen. lia. }
    exists out. cbn [shuffleLoop]. rewrite Hp, (bool_decide_eq_true_2 _ Hn).
    rewrite length_insert in Hout.
    split; [exact Hrun |]. split; [exact Hout |]. split.
    + intros [| i] n' Hi.
      * injection Hi as <-. rewrite (Hkeep n Hfresh), Nat.add_0_r, Hp.
        apply list_lookup_insert_eq. exact Hn.
      * replace (o + S i)%nat with (S o + i)%nat by lia. apply Hset. exact Hi.
    + intros n' Hn'. apply not_elem_of_cons in Hn' as [Hne Hn'].
      rewrite (Hkeep n' Hn'). apply list_lookup_insert_ne. congruence.
Qed.

Lemma lookups_seq (l : list P) :
  (λ n, default nil (l !! n)) <$> seq 0 (length l) = l.
Proof.
  apply list_eq. intros i. rewrite list_lookup_fmap.
  destruct (l !! i) as [x |] eqn:Hi.
  - rewrite (lookup_seq_lt _ _ _ (lookup_lt_Some _ _ _ Hi)). cbn. rewrite Hi. reflexivity.
  - rewrite lookup_seq_ge by (apply lookup_ge_None; exact Hi). reflexivity.
Qed.

(** X17. When [newIndexes] is a permutation of the indices of [members], as
    [rand.Perm] returns one, [shuffle] does not panic, and its result has
    the length of [members], holds [members[o]] at position
    [newIndexes[o]], and is a permutation of [members]. *)
Theorem shuffle_permutation (newIndexes : list nat) (members : list P) :
  newIndexes ≡ₚ seq 0 (length members) →
  ∃ newMembers,
    shuffle nil newIndexes members = Some newMembers
    ∧ length newMembers = length members
    ∧ (∀ o n, newIndexes !! o = Some n → newMembers !! n = members !! o)
    ∧ newMembers ≡ₚ members.
Proof.
  intros Hperm.
  assert (Hlen : length newIndexes = length members)
    by (rewrite Hperm; apply length_seq).
  destruct (shuffleLoop_spec members newIndexes 0
              (replicate (length members) nil))
    as (out & Hrun & Hout & Hset & _).
  { rewrite Hperm. apply NoDup_seq. }
  { intros n Hn. rewrite Hperm in Hn. apply elem_of_seq in Hn.
    rewrite length_replicate. lia. }
  { lia. }
  rewrite length_replicate in Hout.
  exists out. split; [exact Hrun |]. split; [exact Hout |]. split; [exact Hset |].
  assert (Hread : (λ n, default nil (out !! n)) <$> newIndexes = members).
  { apply list_eq. intros o. rewrite list_lookup_fmap.
    destruct (newIndexes !! o) as [n |] eqn:Ho; cbn.
    - rewrite (Hset o n Ho). cbn.
      destruct (lookup_lt_is_Some_2 members o) as [p Hp].
      + rewrite <- Hlen. apply (lookup_lt_Some _ _ _ Ho).
      + rewrite Hp. reflexivity.
    - symmetry. apply lookup_ge_None. rewrite <- Hlen.
      apply lookup_ge_None. exact Ho. }
  rewrite <- Hread, Hperm, <- Hout, lookups_seq. reflexivity.
Qed.

End ShuffleFacts.

(** Three members shuffled by the permutation 2, 0, 1. *)
Lemma shuffle_permutation_witness :
  ∃ newMembers,
    shuffle "" [2; 0; 1]%nat [localAddr; nonLocalAddr; "third address"] = Some newMembers
    ∧ length newMembers = 3%nat
    ∧ (∀ o n, [2; 0; 1]%nat !! o = Some n →
              newMembers !! n = [localAddr; nonLocalAddr; "third address"] !! o)
    ∧ newMembers ≡ₚ [localAddr; nonLocalAddr; "third address"].
Proof.
  apply (shuffle_permutation "" [2; 0; 1]%nat
           [localAddr; nonLocalAddr; "third address"]).
  cbn. apply (Permutation_cons_app [0; 1]%nat [] 2%nat). reflexivity.
Defined.

(** ** The revision that sorts the label keys *)

Section SortedLabelFacts.

Lemma sortStrings_permutation (keys keys' : list string) :
  keys ≡ₚ keys' → SortedLabels.sortStrings keys = SortedLabels.sortStrings keys'.
Proof.
  intros Hperm. unfold SortedLabels.sortStrings.
  apply (Sorted_unique String.le).
  - apply Sorted_merge_sort. apply _.
  - apply Sorted_merge_sort. apply _.
  - rewrite !merge_sort_Permutation. exact Hperm.
Qed.

(** X18. In the revision that writes the labels themselves, the label portion
    does not depend on the order in which [range] yields the keys, because
    the keys are sorted first. Nothing is written for an empty map, and
    for a map with one label the portion is ["-key-value"]. *)
Theorem sorted_checksumString_order_independent
    (l : gmap string string) (keys keys' : list string) (b : string) :
  SortedLabels.rangeKeys l keys →
  SortedLabels.rangeKeys l keys' →
  SortedLabels.checksumStringOver l keys b
  = SortedLabels.checksumStringOver l keys' b
  ∧ SortedLabels.checksumStringOver l keys b = SortedLabels.checksumString l b
  ∧ SortedLabels.checksumString ∅ b = b
  ∧ (∀ key value,
       SortedLabels.checksumString {[ key := value ]} b
       = b +:+ "-" +:+ key +:+ "-" +:+ value).
Proof.
  unfold SortedLabels.rangeKeys. intros Hkeys Hkeys'.
  unfold SortedLabels.checksumString, SortedLabels.checksumStringOver.
  split; [| split; [| split]].
  - rewrite (sortStrings_permutation keys keys'); [reflexivity |].
    rewrite Hkeys, Hkeys'. reflexivity.
  - rewrite (sortStrings_permutation keys _ Hkeys). reflexivity.
  - rewrite map_size_empty. reflexivity.
  - intros key value. rewrite map_size_singleton, map_to_list_singleton.
    cbn. unfold SortedLabels.writeLabel. rewrite lookup_singleton_eq. reflexivity.
Qed.

End SortedLabelFacts.

(** The two labels of member_test.go, yielded in either order, are
    written with foo first. *)
Lemma sorted_checksumString_order_independent_witness :
  SortedLabels.checksumStringOver
    (<[ "foo" := "bar" ]> {[ "hello" := "world" ]}) ["hello"; "foo"] ""
  = SortedLabels.checksumStringOver
      (<[ "foo" := "bar" ]> {[ "hello" := "world" ]}) ["foo"; "hello"] "".
Proof.
  destruct (sorted_checksumString_order_independent
              (<[ "foo" := "bar" ]> {[ "hello" := "world" ]})
              ["hello"; "foo"] ["foo"; "hello"] "") as (Hsame & _).
  - unfold SortedLabels.rangeKeys. vm_compute.
    first [ reflexivity | apply perm_swap ].
  - unfold SortedLabels.rangeKeys. vm_compute.
    first [ reflexivity | apply perm_swap ].
  - exact Hsame.
Defined.

(** ** The two revisions of the checksum string compared *)

Section Revisions.

Variable Fingerprint32 : string → Z.

Lemma length_append (s1 s2 : string) :
  String.length (s1 +:+ s2) = (String.length s1 + String.length s2)%nat.
Proof.
  induction s1 as [| a s1 IH]; [reflexivity |].
  change (S (String.length (s1 +:+ s2))
          = S (String.length s1 + String.length s2)).
  rewrite IH. reflexivity.
Qed.

Lemma writeLabels_length (l : gmap string string) (keys : list string) :
  ∀ b, (String.length b + 2 * length keys
        ≤ String.length (foldl (SortedLabels.writeLabel l) b keys))%nat.
Proof.
  induction keys as [| key keys IH]; intros b; cbn [foldl length].
  - lia.
  - specialize (IH (SortedLabels.writeLabel l b key)).
    unfold SortedLabels.writeLabel in IH at 1.
    rewrite !length_append in IH. cbn [String.length] in IH. lia.
Qed.

(** X19. A member without labels has the same checksum string in both
    revisions, namely the address, the status and the incarnation number:
    this is what keeps nodes of the two versions in agreement as long as
    no labels are used. *)
Theorem revisions_agree_without_labels (m : Member.t) (b : string) :
  Member.Labels m = ∅ →
  SortedLabels.memberChecksumString m b = Member.checksumString Fingerprint32 m b
  ∧ Member.checksumString Fingerprint32 m b
    = b +:+ Member.Address m +:+ Member.Status m +:+ Go.Itoa (Member.Incarnation m).
Proof.
  intros Hnone.
  unfold SortedLabels.memberChecksumString, Member.checksumString.
  rewrite Hnone, (checksumString_zero _ _ _ (checksum_empty Fingerprint32)).
  unfold SortedLabels.checksumString, SortedLabels.checksumStringOver.
  rewrite map_size_empty. split; reflexivity.
Qed.

(** X20. In the revision that writes the labels themselves a member with
    labels never has the checksum string of the member without: every
    label makes the string longer. (With the fingerprint checksum this is
    not so: a label checksum of zero writes nothing.) *)
Theorem sorted_checksumString_shows_labels (l : gmap string string) (b : string) :
  l ≠ ∅ →
  (String.length b + 2 * size l
   ≤ String.length (SortedLabels.checksumString l b))%nat
  ∧ SortedLabels.checksumString l b ≠ b.
Proof.
  intros Hne. apply map_size_non_empty_iff in Hne.
  assert (Hlen : (String.length b + 2 * size l
                  ≤ String.length (SortedLabels.checksumString l b))%nat).
  { unfold SortedLabels.checksumString, SortedLabels.checksumStringOver.
    rewrite bool_decide_eq_true_2 by lia.
    pose proof (writeLabels_length l
                  (SortedLabels.sortStrings (map_to_list l).*1) b) as Hw.
    unfold SortedLabels.sortStrings in Hw at 1.
    rewrite merge_sort_Permutation, length_fmap, length_map_to_list in Hw.
    exact Hw. }
  split; [exact Hlen |].
  intros Heq. rewrite Heq in Hlen. lia.
Qed.

End Revisions.

Lemma revisions_agree_without_labels_witness :
  SortedLabels.memberChecksumString (testMember ∅) ""
  = Member.checksumString Farm.Fingerprint32 (testMember ∅) "".
Proof.
  apply (proj1 (revisions_agree_without_labels Farm.Fingerprint32 (testMember ∅) ""
                  eq_refl)).
Defined.

Lemma sorted_checksumString_shows_labels_witness :
  SortedLabels.checksumString zeroFingerprintLabels "192.168.2.1:1234alive42"
  ≠ "192.168.2.1:1234alive42".
Proof.
  apply (proj2 (sorted_checksumString_shows_labels zeroFingerprintLabels
                  "192.168.2.1:1234alive42"
                  (insert_non_empty (∅ : gmap string string) "k" "ag2tlaaxq"))).
Defined.
